(** * Reference search of the debugger core: [src/dbg/reference.cpp]

    A shallow embedding of [RefFind] and [RefFindInRange] and the proofs of
    their properties.  The collaborators of the file (region and module
    lookup, the memory reader, the Capstone decoder, the caller's callback)
    are parameters; the calls to the GUI and console become an event trace.

    Conventions.  A [duint] is an integer reduced modulo [2 ^ ptr_bits], an
    [int] one converted by [to_int]; a [float] is the rational it denotes,
    and every [float] operation is rounded once, as with scalar SSE
    arithmetic.  The decoder and the memory reader are functions of their
    arguments.  A callback works on the context it is handed, its own data
    included, and returns it.  The loop of the sweep need not end, so it
    runs on fuel.  The buffer [fullName] is taken to be long enough, and
    the allocation of the snapshot to succeed. *)

From Stdlib Require Import ZArith QArith Qround Qpower List String Ascii Bool.
From Stdlib Require Import Lia Lqa Sorted.
From Stdlib Require Import Strings.Byte.
Import ListNotations.
Open Scope Z_scope.

(** ** Machine integers *)

(** [duint] is the pointer-sized unsigned integer of the build, [bits] wide:
    arithmetic on it is reduced modulo [2 ^ bits]. *)
Definition wrap (bits x : Z) : Z := x mod 2 ^ bits.

(** The conversion to the 32-bit [int], two's complement. *)
Definition to_int (x : Z) : Z := (x + 2 ^ 31) mod 2 ^ 32 - 2 ^ 31.

(** ** Single-precision arithmetic

    The percentages are computed in [float].  A [float] value is the rational
    it denotes; every operation rounds its exact result to 24 significant
    bits, to nearest and ties to even.  The values of this file stay well
    inside the normal range of the format, so neither overflow nor gradual
    underflow is modelled. *)

(** [ilog2 x] is the integer [k] with [2 ^ k <= x < 2 ^ (k + 1)], [x] positive. *)
Definition ilog2 (x : Q) : Z :=
  let k := Z.log2 (Qnum x) - Z.log2 (Zpos (Qden x)) in
  if Qle_bool (2 ^ k) x then k else k - 1.

(** Rounding to the nearest integer, ties to the even one. *)
Definition rne (x : Q) : Z :=
  let f := Qfloor x in
  match (x - inject_Z f ?= 1 # 2)%Q with
  | Lt => f
  | Gt => f + 1
  | Eq => if Z.even f then f else f + 1
  end.

Definition round_pos (x : Q) : Q :=
  let e := ilog2 x - 23 in
  (inject_Z (rne (x / 2 ^ e)) * 2 ^ e)%Q.

Definition fl (x : Q) : Q :=
  match Qnum x with
  | Z0 => 0%Q
  | Zpos _ => round_pos x
  | Zneg _ => (- round_pos (- x))%Q
  end.

(** The relative error of one rounding is at most [2 ^ -24]. *)
Definition f32_eps : Q := 1 # 16777216.

Definition f32_of_Z (z : Z) : Q := fl (inject_Z z).
Definition f32_add (a b : Q) : Q := fl (a + b).
Definition f32_mul (a b : Q) : Q := fl (a * b).
Definition f32_div (a b : Q) : Q := fl (a / b).

(** ** Data of the search *)

(** The fields of [MODINFO] that the search reads. *)
Record MODINFO := { base : Z; size : Z; name : string }.

(** The search context handed to every callback: [refcount] is an [int],
    [userinfo] the caller's data and [refname] the field [name]. *)
Record REFINFO (U : Type) := { refcount : Z; userinfo : U; refname : string }.
Arguments refcount {U} _.
Arguments userinfo {U} _.
Arguments refname {U} _.

Inductive REFFINDTYPE := CURRENT_REGION | CURRENT_MODULE | ALL_MODULES.

(** What the search does to the outside: console output, reads of the
    debuggee's memory and the three calls to the reference view. *)
Inductive Event :=
| dprintf (msg : string)
| EvMemRead (address sz : Z)
| GuiReferenceSetCurrentTaskProgress (percent : Z) (task : string)
| GuiReferenceSetProgress (percent : Z)
| GuiReferenceReloadData.

(** ** Collaborators *)

(** The build: the width of [duint] and the text [%p] prints for a pointer. *)
Record Platform := { ptr_bits : Z; fmt_p : Z -> string }.

(** [memory.h] and [module.h].  [MemFindBaseAddr] returns the base of the
    region (0 when there is none) and stores its size; [MemRead] fails or
    yields the bytes read. *)
Record Debuggee := {
  MemFindBaseAddr : Z -> Z * Z;
  MemRead : Z -> Z -> option (list byte);
  ModNameFromAddr : Z -> option string;
  ModInfoFromAddr : Z -> option MODINFO;
  ModGetList : list MODINFO
}.

(** The Capstone wrapper: [Disassemble addr data size] decodes one
    instruction from the bytes at [data], of which [size] may be used;
    [Size] is the length of the decoded instruction, an [int]. *)
Record Capstone (I : Type) := {
  MAX_DISASM_BUFFER : Z;
  Disassemble : Z -> list byte -> Z -> option I;
  Size : I -> Z
}.
Arguments MAX_DISASM_BUFFER {I} _.
Arguments Disassemble {I} _ _ _ _.
Arguments Size {I} _ _.

(** A callback gets the decoded instruction (nothing on the initialisation
    call) and may write the context it is handed. *)
Definition CBREF (I U : Type) := option I -> REFINFO U -> bool * REFINFO U.
Definition CBPROGRESS := Z -> list Event.

Definition nl : string := String (ascii_of_nat 10) EmptyString.

(** ** The range scan *)

(** The loop variables of the sweep of [RefFindInRange]. *)
Record Sweep (U : Type) := { off : Z; addr : Z; info : REFINFO U }.
Arguments off {U} _.
Arguments addr {U} _.
Arguments info {U} _.

Section Reference.
Context {I U : Type}.
Variable pf : Platform.
Variable dbg : Debuggee.
Variable cp : Capstone I.

Let duint := wrap (ptr_bits pf).

(** [(int)floor(((float)i / (float)scanSize) * 100.0f)] *)
Definition sweep_percent (i scanSize : Z) : Z :=
  Qfloor (f32_mul (f32_div (f32_of_Z i) (f32_of_Z scanSize)) 100).

Definition incr (refInfo : REFINFO U) : REFINFO U :=
  {| refcount := to_int (refcount refInfo + 1);
     userinfo := userinfo refInfo;
     refname := refname refInfo |}.

(** One iteration of the [for] loop, lines 205 to 235. *)
Definition sweep_step (scanSize : Z) (data : list byte) (Callback : CBREF I U)
    (cbUpdateProgress : CBPROGRESS) (st : Sweep U) : Sweep U * list Event :=
  let i := off st in
  let ev := if i mod 4096 =? 0
            then cbUpdateProgress (sweep_percent i scanSize) else [] in
  (* Disassemble the instruction *)
  let disasmMaxSize := Z.min (MAX_DISASM_BUFFER cp) (to_int (duint (scanSize - i))) in
  let '(disasmLen, refInfo) :=
    match Disassemble cp (addr st) (skipn (Z.to_nat i) data) disasmMaxSize with
    | Some insn =>
        let '(hit, refInfo) := Callback (Some insn) (info st) in
        (Size cp insn, if hit then incr refInfo else refInfo)
    | None => (1, info st)
    end in
  ({| off := duint (i + disasmLen);
      addr := duint (addr st + disasmLen);
      info := refInfo |}, ev).

(** The loop itself; [None] when [fuel] iterations do not reach [scanSize]. *)
Fixpoint sweep (fuel : nat) (scanSize : Z) (data : list byte) (Callback : CBREF I U)
    (cbUpdateProgress : CBPROGRESS) (st : Sweep U) : option (Sweep U * list Event) :=
  if off st <? scanSize then
    match fuel with
    | O => None
    | S fuel' =>
        let '(st1, ev1) := sweep_step scanSize data Callback cbUpdateProgress st in
        match sweep fuel' scanSize data Callback cbUpdateProgress st1 with
        | Some (st2, ev2) => Some (st2, ev1 ++ ev2)
        | None => None
        end
    end
  else Some (st, []).

(** The offsets at which the body of the loop runs, in order. *)
Fixpoint sweep_offsets (fuel : nat) (scanSize : Z) (data : list byte)
    (Callback : CBREF I U) (st : Sweep U) : list Z :=
  if off st <? scanSize then
    match fuel with
    | O => []
    | S fuel' =>
        off st :: sweep_offsets fuel' scanSize data Callback
                    (fst (sweep_step scanSize data Callback (fun _ => []) st))
    end
  else [].

(** How far the iteration at [st] moves the offset: the length of the
    instruction decoded there, one byte when there is none. *)
Definition step_length (scanSize : Z) (data : list byte) (st : Sweep U) : Z :=
  let disasmMaxSize :=
    Z.min (MAX_DISASM_BUFFER cp) (to_int (duint (scanSize - off st))) in
  match Disassemble cp (addr st) (skipn (Z.to_nat (off st)) data) disasmMaxSize with
  | Some insn => Size cp insn
  | None => 1
  end.

(** What one iteration at offset [i] reports. *)
Definition report (scanSize : Z) (cbUpdateProgress : CBPROGRESS) (i : Z) : list Event :=
  if i mod 4096 =? 0 then cbUpdateProgress (sweep_percent i scanSize) else [].

(** The diagnostic of a failed read. *)
Definition read_error (Silent : bool) : list Event :=
  if Silent then [] else [dprintf ("Error reading memory in reference search" ++ nl)].

(** [RefFindInRange]: the value returned, the context as it leaves it and
    the events. *)
Definition RefFindInRange (fuel : nat) (scanStart scanSize : Z) (Callback : CBREF I U)
    (UserData : U) (Silent : bool) (refInfo : REFINFO U) (initCallBack : bool)
    (cbUpdateProgress : CBPROGRESS) : option (Z * REFINFO U * list Event) :=
  match MemRead dbg scanStart scanSize with
  | None =>
      Some (0, refInfo, EvMemRead scanStart scanSize :: read_error Silent)
  | Some data =>
      let refInfo0 := if initCallBack then snd (Callback None refInfo) else refInfo in
      match sweep fuel scanSize data Callback cbUpdateProgress
              {| off := 0; addr := scanStart; info := refInfo0 |} with
      | Some (st, ev) =>
          Some (refcount (info st), info st,
                EvMemRead scanStart scanSize :: ev ++ cbUpdateProgress 100)
      | None => None
      end
  end.

(** ** The three scopes *)

(** The progress lambdas of the region and the module scope. *)
Definition region_progress : CBPROGRESS := fun percent =>
  [GuiReferenceSetCurrentTaskProgress percent "Region Search";
   GuiReferenceSetProgress percent].

Definition module_progress : CBPROGRESS := fun percent =>
  [GuiReferenceSetCurrentTaskProgress percent "Module Search";
   GuiReferenceSetProgress percent].

(** The progress lambda of the all-modules scope, for module [i] of
    [count] with name [modname]. *)
Definition total_percent (i count percent : Z) : Z :=
  let fPercent := f32_div (f32_of_Z percent) 100 in
  let fTotalPercent := f32_div (f32_add (f32_of_Z i) fPercent) (f32_of_Z count) in
  Qfloor (f32_mul fTotalPercent 100).

Definition all_modules_progress (i count : Z) (modname : string) : CBPROGRESS :=
  fun percent =>
    [GuiReferenceSetCurrentTaskProgress percent modname;
     GuiReferenceSetProgress (total_percent i count percent)].

(** Lines 35 to 47: the range scanned in the region scope. *)
Definition region_range (Address Size regionBase regionSize : Z) : Z * Z :=
  if Size =? 0 then (regionBase, regionSize)
  else
    let maxsize := duint (Size - duint (Address - regionBase)) in
    (Address, Z.min Size maxsize).

(** How the loop over the modules ends: by one of its [return]s or by
    running off the list. *)
Inductive LoopExit :=
| Returned (ret : Z)
| Finished (refInfo : REFINFO U).

(** Lines 150 to 177; [rest] holds the modules from index [i] on and
    [count] is [modList.size()].  The index stays below [count], itself a
    [duint], so [i++] is written without reduction. *)
Fixpoint modules_loop (fuel : nat) (Callback : CBREF I U) (UserData : U) (Silent : bool)
    (count : Z) (rest : list MODINFO) (i : Z) (refInfo : REFINFO U)
    : option (LoopExit * list Event) :=
  match rest with
  | [] => Some (Finished refInfo, [])
  | m :: rest' =>
      let initCallBack := i =? 0 in
      match RefFindInRange fuel (base m) (size m) Callback UserData Silent refInfo
              initCallBack (all_modules_progress i count (name m)) with
      | None => None
      | Some (refFindInRangeRet, refInfo1, ev1) =>
          if refFindInRangeRet =? 0 then Some (Returned refFindInRangeRet, ev1)
          else
            match modules_loop fuel Callback UserData Silent count rest'
                    (i + 1) refInfo1 with
            | Some (r, ev2) => Some (r, ev1 ++ [GuiReferenceReloadData] ++ ev2)
            | None => None
            end
      end
  end.

(** Lines 180 to 182. *)
Definition RefFind_end (refInfo : REFINFO U) (ev : list Event) : option (Z * list Event) :=
  Some (refcount refInfo, ev ++ [GuiReferenceSetProgress 100; GuiReferenceReloadData]).

(** The names given to the search, one per scope. *)
Definition region_fullName (Name : string) (scanStart : Z) : string :=
  match ModNameFromAddr dbg scanStart with
  | Some moduleName => Name ++ " (Region " ++ moduleName ++ ")"
  | None => Name ++ " (Region " ++ fmt_p pf scanStart ++ ")"
  end.

Definition module_fullName (Name : string) (scanStart : Z) : string :=
  match ModNameFromAddr dbg scanStart with
  | Some moduleName => Name ++ " (" ++ moduleName ++ ")"
  | None => Name ++ " (" ++ fmt_p pf scanStart ++ ")"
  end.

Definition all_fullName (Name : string) : string := "All Modules (" ++ Name ++ ")".

(** The context before the first scan. *)
Definition init_refInfo (UserData : U) (fullName : string) : REFINFO U :=
  {| refcount := 0; userinfo := UserData; refname := fullName |}.

(** [RefFind]: the value returned and the events, in order. *)
Definition RefFind (fuel : nat) (Address Size : Z) (Callback : CBREF I U) (UserData : U)
    (Silent : bool) (Name : string) (type : REFFINDTYPE) : option (Z * list Event) :=
  match type with
  | CURRENT_REGION =>
      let '(regionBase, regionSize) := MemFindBaseAddr dbg Address in
      if (regionBase =? 0) || (regionSize =? 0) then
        Some (0, if Silent then []
                 else [dprintf ("Invalid memory page 0x" ++ fmt_p pf Address ++ nl)])
      else
        let '(scanStart, scanSize) := region_range Address Size regionBase regionSize in
        let refInfo := init_refInfo UserData (region_fullName Name scanStart) in
        match RefFindInRange fuel scanStart scanSize Callback UserData Silent refInfo
                true region_progress with
        | None => None
        | Some (refFindInRangeRet, refInfo1, ev) =>
            let ev1 := ev ++ [GuiReferenceReloadData] in
            if refFindInRangeRet =? 0 then Some (refFindInRangeRet, ev1)
            else
              RefFind_end
                {| refcount := to_int (refcount refInfo1 + refFindInRangeRet);
                   userinfo := userinfo refInfo1;
                   refname := refname refInfo1 |} ev1
        end
  | CURRENT_MODULE =>
      match ModInfoFromAddr dbg Address with
      | None =>
          Some (0, if Silent then []
                   else [dprintf ("Couldn't locate module for 0x" ++ fmt_p pf Address ++ nl)])
      | Some modInfo =>
          let scanStart := base modInfo in
          let scanSize := size modInfo in
          let refInfo := init_refInfo UserData (module_fullName Name scanStart) in
          match RefFindInRange fuel scanStart scanSize Callback UserData Silent refInfo
                  true module_progress with
          | None => None
          | Some (refFindInRangeRet, refInfo1, ev) =>
              if refFindInRangeRet =? 0 then Some (refFindInRangeRet, ev)
              else RefFind_end refInfo1 (ev ++ [GuiReferenceReloadData])
          end
      end
  | ALL_MODULES =>
      let modList := ModGetList dbg in
      match modList with
      | [] => Some (0, if Silent then [] else [dprintf "Couldn't get module list"])
      | _ :: _ =>
          let refInfo := init_refInfo UserData (all_fullName Name) in
          match modules_loop fuel Callback UserData Silent (Z.of_nat (List.length modList))
                  modList 0 refInfo with
          | None => None
          | Some (Returned ret, ev) => Some (ret, ev)
          | Some (Finished refInfo1, ev) => RefFind_end refInfo1 ev
          end
      end
  end.

End Reference.

(** ** Vocabulary of the statements *)

(** The decoder reports lengths between 1 and [maxlen]. *)
Definition decoder_advances {I : Type} (cp : Capstone I) (maxlen : Z) : Prop :=
  forall address data sz insn,
    Disassemble cp address data sz = Some insn -> 1 <= Size cp insn <= maxlen.

(** The overall percentages shown, in order. *)
Definition overall (ev : list Event) : list Z :=
  flat_map (fun e => match e with GuiReferenceSetProgress q => [q] | _ => [] end) ev.

(** The memory reads attempted, in order. *)
Definition reads (ev : list Event) : list (Z * Z) :=
  flat_map (fun e => match e with EvMemRead a n => [(a, n)] | _ => [] end) ev.


(** The percentages as exact arithmetic gives them:
    [floor(offset / size * 100)] and
    [floor(((index + percent / 100) / count) * 100)]. *)
Definition exact_percent (offset sz : Z) : Z :=
  Qfloor (inject_Z offset / inject_Z sz * 100).


(** A report at every 4096 bytes of a range of [sz] bytes, with the exact
    percentage. *)
Definition reported_every_4096 (sz : Z) (ev : list Event) : Prop :=
  forall k, 0 <= 4096 * k < sz ->
    exists l, In (GuiReferenceSetCurrentTaskProgress (exact_percent (4096 * k) sz) l) ev.

(** [floor (fl (fl (v / d) * 100))], the shape of both percentages. *)
Definition pct (v d : Q) : Z := Qfloor (f32_mul (f32_div v d) 100).

(** The sum [(float)i + fPercent] of the all-modules lambda. *)
Definition module_share (i percent : Z) : Q :=
  f32_add (f32_of_Z i) (f32_div (f32_of_Z percent) 100).

(** The overall percentage at the start of module [i] of [count]. *)
Definition module_floor (i count : Z) : Z := pct (inject_Z i) (f32_of_Z count).

(** The offsets at which the sweep reports, and what it reports there. *)
Definition aligned (i : Z) : bool := i mod 4096 =? 0.

Definition percents_of (scanSize : Z) (offsets : list Z) : list Z :=
  map (fun i => sweep_percent i scanSize) (filter aligned offsets).

(** Every read the debuggee grants is short enough for the offsets of the
    sweep not to wrap around, and for [fuel] iterations to cover it. *)
Definition reads_fit (pf : Platform) (dbg : Debuggee) (maxlen : Z) (fuel : nat) : Prop :=
  forall a n data,
    MemRead dbg a n = Some data -> n + maxlen <= 2 ^ ptr_bits pf /\ n <= Z.of_nat fuel.

(** ** Vocabulary of the further properties *)

(** The decoder never reports more bytes than the lookahead it was given,
    and never fewer than one. *)
Definition decoder_bounded {I : Type} (cp : Capstone I) : Prop :=
  forall address data sz insn,
    Disassemble cp address data sz = Some insn -> 1 <= Size cp insn <= sz.

(** The callback leaves the count of the context alone. *)
Definition keeps_count {I U : Type} (Callback : CBREF I U) : Prop :=
  forall x r, refcount (snd (Callback x r)) = refcount r.

(** The diagnostics printed and the task percentages shown, in order. *)
Definition diagnostics (ev : list Event) : list string :=
  flat_map (fun e => match e with dprintf msg => [msg] | _ => [] end) ev.

Definition task_percents (ev : list Event) : list Z :=
  flat_map (fun e => match e with GuiReferenceSetCurrentTaskProgress p _ => [p] | _ => [] end)
           ev.

(** A progress callback that neither reads nor prints. *)
Definition quiet (prog : CBPROGRESS) : Prop :=
  forall l, reads (flat_map prog l) = [] /\ diagnostics (flat_map prog l) = [].

(** The range of a module, and the bytes of a list of modules. *)
Definition module_range (m : MODINFO) : Z * Z := (base m, size m).

Definition total_size (l : list MODINFO) : Z :=
  fold_right (fun m acc => Z.max 0 (size m) + acc) 0 l.

Definition Zsum (l : list Z) : Z := fold_right Z.add 0 l.

Section Hits.
Context {I U : Type}.
Variable pf : Platform.
Variable dbg : Debuggee.
Variable cp : Capstone I.

(** Whether the iteration at [st] raises the count: an instruction is
    decoded there and the callback returns true for it. *)
Definition step_hit (scanSize : Z) (data : list byte) (Callback : CBREF I U)
    (st : Sweep U) : bool :=
  let disasmMaxSize :=
    Z.min (MAX_DISASM_BUFFER cp) (to_int (wrap (ptr_bits pf) (scanSize - off st))) in
  match Disassemble cp (addr st) (skipn (Z.to_nat (off st)) data) disasmMaxSize with
  | Some insn => fst (Callback (Some insn) (info st))
  | None => false
  end.

(** The number of iterations of the sweep from [st] that raise the count. *)
Fixpoint sweep_hits (fuel : nat) (scanSize : Z) (data : list byte)
    (Callback : CBREF I U) (st : Sweep U) : Z :=
  if off st <? scanSize then
    match fuel with
    | O => 0
    | S fuel' =>
        (if step_hit scanSize data Callback st then 1 else 0)
        + sweep_hits fuel' scanSize data Callback
            (fst (sweep_step pf cp scanSize data Callback (fun _ => []) st))
    end
  else 0.

(** The state in which [RefFindInRange] enters its loop. *)
(** The calls of the decoder that the sweep makes, in order: the address,
    the offset into the buffer and the window, [disasmMaxSize]. *)
Fixpoint sweep_calls (fuel : nat) (scanSize : Z) (data : list byte) (Callback : CBREF I U)
    (st : Sweep U) : list (Z * Z * Z) :=
  if off st <? scanSize then
    match fuel with
    | O => []
    | S fuel' =>
        (addr st, off st,
         Z.min (MAX_DISASM_BUFFER cp) (to_int (wrap (ptr_bits pf) (scanSize - off st))))
        :: sweep_calls fuel' scanSize data Callback
             (fst (sweep_step pf cp scanSize data Callback (fun _ => []) st))
    end
  else [].

Definition scan_start (scanStart : Z) (Callback : CBREF I U) (refInfo : REFINFO U)
    (initCallBack : bool) : Sweep U :=
  {| off := 0; addr := scanStart;
     info := if initCallBack then snd (Callback None refInfo) else refInfo |}.

(** The matches of one range: none when it cannot be read. *)
Definition scan_hits (fuel : nat) (scanStart scanSize : Z) (Callback : CBREF I U)
    (refInfo : REFINFO U) (initCallBack : bool) : Z :=
  match MemRead dbg scanStart scanSize with
  | Some data =>
      sweep_hits fuel scanSize data Callback
        (scan_start scanStart Callback refInfo initCallBack)
  | None => 0
  end.

(** The matches of the modules [rest], one number per module, each module
    scanned with the context that the scan before it left. *)
Fixpoint modules_hits (fuel : nat) (Callback : CBREF I U) (UserData : U) (Silent : bool)
    (count : Z) (rest : list MODINFO) (i : Z) (refInfo : REFINFO U) : list Z :=
  match rest with
  | [] => []
  | m :: rest' =>
      scan_hits fuel (base m) (size m) Callback refInfo (i =? 0) ::
      match RefFindInRange pf dbg cp fuel (base m) (size m) Callback UserData Silent refInfo
              (i =? 0) (all_modules_progress i count (name m)) with
      | Some (_, refInfo1, _) =>
          modules_hits fuel Callback UserData Silent count rest' (i + 1) refInfo1
      | None => []
      end
  end.
End Hits.

(** ** A small debuggee

    A decoder that knows two instructions, callbacks that keep a log of the
    addresses they matched, and processes made of images that are at once
    regions and modules. *)
Module Demo.

Definition hex_digit (d : Z) : ascii :=
  nth (Z.to_nat d) (list_ascii_of_string "0123456789ABCDEF") "0"%char.

Fixpoint hex (digits : nat) (x : Z) : string :=
  match digits with
  | O => EmptyString
  | S n => (hex n (x / 16) ++ String (hex_digit (x mod 16)) EmptyString)%string
  end.

Definition x64 : Platform := {| ptr_bits := 64; fmt_p := hex 16 |}.

Record Insn := { insn_addr : Z; insn_len : Z; opcode : byte }.

(** [90] is the one-byte [nop], [EB] the two-byte short [jmp]; no other
    byte starts an instruction. *)
Definition decode (address : Z) (data : list byte) (sz : Z) : option Insn :=
  match data with
  | [] => None
  | b :: rest =>
      if Byte.eqb b x90 && (1 <=? sz) then
        Some {| insn_addr := address; insn_len := 1; opcode := b |}
      else if Byte.eqb b xeb && (2 <=? sz) && negb (Nat.eqb (List.length (firstn 1 rest)) 0) then
        Some {| insn_addr := address; insn_len := 2; opcode := b |}
      else None
  end.

Definition capstone : Capstone Insn :=
  {| MAX_DISASM_BUFFER := 16; Disassemble := decode; Size := insn_len |}.

Definition log_hit (x : option Insn) (r : REFINFO (list Z)) : REFINFO (list Z) :=
  match x with
  | Some i =>
      {| refcount := refcount r;
         userinfo := userinfo r ++ [insn_addr i];
         refname := refname r |}
  | None => r
  end.

(** Matches every instruction. *)
Definition cbAll : CBREF Insn (list Z) := fun x r => (true, log_hit x r).

(** Matches the jumps. *)
Definition cbJmp : CBREF Insn (list Z) := fun x r =>
  match x with
  | Some i => if Byte.eqb (opcode i) xeb then (true, log_hit x r) else (false, r)
  | None => (true, r)
  end.

Definition image := (MODINFO * list byte)%type.

Definition inside (a b n : Z) : bool := (b <=? a) && (a <? b + n).

Definition find_image (imgs : list image) (a : Z) : option image :=
  find (fun im => inside a (base (fst im)) (size (fst im))) imgs.

Definition process (imgs : list image) : Debuggee :=
  {| MemFindBaseAddr := fun a =>
       match find_image imgs a with
       | Some im => (base (fst im), size (fst im))
       | None => (0, 0)
       end;
     MemRead := fun a n =>
       match find_image imgs a with
       | Some im =>
           if (0 <=? n) && (a + n <=? base (fst im) + size (fst im)) then
             Some (firstn (Z.to_nat n) (skipn (Z.to_nat (a - base (fst im))) (snd im)))
           else None
       | None => None
       end;
     ModNameFromAddr := fun a => option_map (fun im => name (fst im)) (find_image imgs a);
     ModInfoFromAddr := fun a => option_map fst (find_image imgs a);
     ModGetList := map fst imgs |}.

Definition img (b : Z) (nm : string) (bytes : list byte) : image :=
  ({| base := b; size := Z.of_nat (List.length bytes); name := nm |}, bytes).

Definition fresh (nm : string) : REFINFO (list Z) :=
  {| refcount := 0; userinfo := []; refname := nm |}.

Definition page : nat := Z.to_nat 4096.

(** One [nop]. *)
Definition one_nop : Debuggee := process [img 0x401000 "a.exe" [x90]].

(** A module of two [nop]s before one with a jump and a [nop], and the
    same two the other way round. *)
Definition nops_then_jump : Debuggee :=
  process [img 0x401000 "a.exe" [x90; x90]; img 0x501000 "b.dll" [xeb; x00; x90]].

Definition jump_then_nops : Debuggee :=
  process [img 0x501000 "b.dll" [xeb; x00; x90]; img 0x401000 "a.exe" [x90; x90]].

(** A region of sixteen [nop]s. *)
Definition sixteen_nops : Debuggee := process [img 0x401000 "a.exe" (repeat x90 16)].

(** 4100 bytes of data with a jump across the page boundary, at offset 4095. *)
Definition straddle : Debuggee :=
  process [img 0x401000 "a.exe" (repeat x06 (page - 1) ++ [xeb; x00] ++ repeat x06 3)].


(** A module of two [nop]s between two with a jump. *)
Definition jump_nops_jump : Debuggee :=
  process [img 0x501000 "b.dll" [xeb; x00; x90]; img 0x401000 "a.exe" [x90; x90];
           img 0x601000 "c.dll" [xeb; x00]].

End Demo.

(** * Proofs *)

(** ** Rounding *)

Section Rounding.
Local Open Scope Q_scope.

Lemma rne_floor (x : Q) : (Qfloor x <= rne x <= Qfloor x + 1)%Z.
Proof.
  unfold rne. destruct (x - inject_Z (Qfloor x) ?= 1 # 2); try lia.
  destruct (Z.even (Qfloor x)); lia.
Qed.

Lemma rne_mono (x y : Q) : x <= y -> (rne x <= rne y)%Z.
Proof.
  intros Hxy.
  pose proof (Qfloor_resp_le _ _ Hxy) as Hf.
  destruct (Z.eq_dec (Qfloor x) (Qfloor y)) as [E | N].
  - unfold rne. rewrite <- E.
    destruct (Qcompare_spec (x - inject_Z (Qfloor x)) (1 # 2)) as [Hx | Hx | Hx];
    destruct (Qcompare_spec (y - inject_Z (Qfloor x)) (1 # 2)) as [Hy | Hy | Hy];
    try destruct (Z.even (Qfloor x)); try lia; exfalso; lra.
  - pose proof (rne_floor x). pose proof (rne_floor y). lia.
Qed.

Lemma rne_Z (z : Z) : rne (inject_Z z) = z.
Proof.
  unfold rne. rewrite Qfloor_Z.
  destruct (Qcompare_spec (inject_Z z - inject_Z z) (1 # 2)) as [H | H | H];
    try reflexivity; exfalso; lra.
Qed.

Lemma rne_eq (x : Q) (z : Z) : x == inject_Z z -> rne x = z.
Proof.
  intros H. apply Z.le_antisymm.
  - rewrite <- (rne_Z z). apply rne_mono. lra.
  - rewrite <- (rne_Z z) at 1. apply rne_mono. lra.
Qed.

Lemma pow2_pos (e : Z) : 0 < 2 ^ e.
Proof. apply Qpower_0_lt. reflexivity. Qed.

Lemma pow2_add (a b : Z) : 2 ^ (a + b) == 2 ^ a * 2 ^ b.
Proof. apply Qpower_plus. discriminate. Qed.

Lemma pow2_Z (n : Z) : (0 <= n)%Z -> 2 ^ n == inject_Z (2 ^ n).
Proof. intros H. symmetry. apply (Zpower_Qpower 2 n H). Qed.

Lemma pow2_le (a b : Z) : (a <= b)%Z -> 2 ^ a <= 2 ^ b.
Proof. intros H. apply Qpower_le_compat_l; [exact H | discriminate]. Qed.

Lemma pow2_lt_inv (a b : Z) : 2 ^ a < 2 ^ b -> (a < b)%Z.
Proof. intros H. apply (Qpower_lt_compat_l_inv 2); [exact H | reflexivity]. Qed.

Lemma ilog2_spec (x : Q) : 0 < x -> 2 ^ ilog2 x <= x /\ x < 2 ^ (ilog2 x + 1).
Proof.
  intros Hx. destruct x as [n d]. unfold ilog2. simpl Qnum. simpl Qden.
  assert (Hn : (0 < n)%Z) by (unfold Qlt in Hx; simpl in Hx; lia).
  set (a := Z.log2 n). set (b := Z.log2 (Z.pos d)).
  assert (Ha : (0 <= a)%Z) by apply Z.log2_nonneg.
  assert (Hb : (0 <= b)%Z) by apply Z.log2_nonneg.
  destruct (Z.log2_spec n Hn) as [Ha1 Ha2]. fold a in Ha1, Ha2.
  destruct (Z.log2_spec (Z.pos d) (Pos2Z.is_pos d)) as [Hb1 Hb2]. fold b in Hb1, Hb2.
  assert (Qa1 : 2 ^ a <= inject_Z n) by (rewrite pow2_Z by lia; rewrite <- Zle_Qle; lia).
  assert (Qa2 : inject_Z n < 2 ^ (a + 1)) by (rewrite pow2_Z by lia; rewrite <- Zlt_Qlt; lia).
  assert (Qb1 : 2 ^ b <= inject_Z (Z.pos d)) by (rewrite pow2_Z by lia; rewrite <- Zle_Qle; lia).
  assert (Qb2 : inject_Z (Z.pos d) < 2 ^ (b + 1)) by (rewrite pow2_Z by lia; rewrite <- Zlt_Qlt; lia).
  assert (Hd : 0 < inject_Z (Z.pos d)) by (rewrite <- (Zlt_Qlt 0); lia).
  assert (Hxd : (n # d) * inject_Z (Z.pos d) == inject_Z n).
  { rewrite (Qmake_Qdiv n d). field. lra. }
  pose proof (pow2_pos (a - b)) as P0. pose proof (pow2_pos (a - b - 1)) as P1.
  pose proof (pow2_pos b) as Pb.
  destruct (Qle_bool (2 ^ (a - b)) (n # d)) eqn:E.
  - apply Qle_bool_iff in E. split; [exact E |].
    assert (K : 2 ^ (a - b + 1) * 2 ^ b == 2 ^ (a + 1))
      by (rewrite <- pow2_add; replace (a - b + 1 + b)%Z with (a + 1)%Z by ring; reflexivity).
    pose proof (pow2_pos (a - b + 1)) as P2.
    apply (Qmult_lt_r _ _ (inject_Z (Z.pos d)) Hd). nra.
  - assert (E' : n # d < 2 ^ (a - b)).
    { apply Qnot_le_lt. intros C. apply Qle_bool_iff in C. congruence. }
    replace (a - b - 1 + 1)%Z with (a - b)%Z by ring. split; [| exact E'].
    assert (K : 2 ^ (a - b - 1) * 2 ^ (b + 1) == 2 ^ a)
      by (rewrite <- pow2_add; replace (a - b - 1 + (b + 1))%Z with a by ring; reflexivity).
    apply (Qmult_le_r _ _ (inject_Z (Z.pos d)) Hd). nra.
Qed.

Lemma ilog2_mono (x y : Q) : 0 < x -> x <= y -> (ilog2 x <= ilog2 y)%Z.
Proof.
  intros Hx Hxy.
  destruct (ilog2_spec x Hx) as [A _].
  destruct (ilog2_spec y) as [_ B]; [lra |].
  assert (C : 2 ^ ilog2 x < 2 ^ (ilog2 y + 1)) by lra.
  apply pow2_lt_inv in C. lia.
Qed.


Lemma scaled_range (x : Q) :
  0 < x -> inject_Z (2 ^ 23) <= x / 2 ^ (ilog2 x - 23) < inject_Z (2 ^ 24).
Proof.
  intros Hx. destruct (ilog2_spec x Hx) as [A B].
  set (k := ilog2 x) in *.
  pose proof (pow2_pos (k - 23)) as P.
  assert (K1 : 2 ^ k == inject_Z (2 ^ 23) * 2 ^ (k - 23)).
  { rewrite <- (pow2_Z 23) by lia. rewrite <- pow2_add.
    replace (23 + (k - 23))%Z with k by ring. reflexivity. }
  assert (K2 : 2 ^ (k + 1) == inject_Z (2 ^ 24) * 2 ^ (k - 23)).
  { rewrite <- (pow2_Z 24) by lia. rewrite <- pow2_add.
    replace (24 + (k - 23))%Z with (k + 1)%Z by ring. reflexivity. }
  split.
  - apply Qle_shift_div_l; [exact P | lra].
  - apply Qlt_shift_div_r; [exact P | lra].
Qed.

Lemma round_pos_range (x : Q) :
  0 < x -> 2 ^ ilog2 x <= round_pos x <= 2 ^ (ilog2 x + 1).
Proof.
  intros Hx. destruct (scaled_range x Hx) as [A B]. unfold round_pos.
  set (k := ilog2 x) in *. set (y := x / 2 ^ (k - 23)) in *.
  pose proof (pow2_pos (k - 23)) as P.
  assert (R1 : (2 ^ 23 <= rne y)%Z) by (rewrite <- (rne_Z (2 ^ 23)); apply rne_mono; exact A).
  assert (R2 : (rne y <= 2 ^ 24)%Z)
    by (rewrite <- (rne_Z (2 ^ 24)); apply rne_mono; apply Qlt_le_weak; exact B).
  assert (K1 : 2 ^ k == inject_Z (2 ^ 23) * 2 ^ (k - 23)).
  { rewrite <- (pow2_Z 23) by lia. rewrite <- pow2_add.
    replace (23 + (k - 23))%Z with k by ring. reflexivity. }
  assert (K2 : 2 ^ (k + 1) == inject_Z (2 ^ 24) * 2 ^ (k - 23)).
  { rewrite <- (pow2_Z 24) by lia. rewrite <- pow2_add.
    replace (24 + (k - 23))%Z with (k + 1)%Z by ring. reflexivity. }
  rewrite Zle_Qle in R1, R2. rewrite K1, K2. split.
  - apply Qmult_le_compat_r; [exact R1 | lra].
  - apply Qmult_le_compat_r; [exact R2 | lra].
Qed.

Lemma round_pos_mono (x y : Q) : 0 < x -> x <= y -> round_pos x <= round_pos y.
Proof.
  intros Hx Hxy. assert (Hy : 0 < y) by lra.
  pose proof (ilog2_mono x y Hx Hxy) as Hk.
  destruct (Z.eq_dec (ilog2 x) (ilog2 y)) as [E | N].
  - unfold round_pos. rewrite <- E.
    pose proof (pow2_pos (ilog2 x - 23)) as P.
    apply Qmult_le_compat_r; [| lra].
    rewrite <- Zle_Qle. apply rne_mono.
    apply Qmult_le_compat_r; [exact Hxy |].
    apply Qlt_le_weak, Qinv_lt_0_compat, P.
  - destruct (round_pos_range x Hx) as [_ A]. destruct (round_pos_range y Hy) as [B _].
    assert (C : 2 ^ (ilog2 x + 1) <= 2 ^ ilog2 y) by (apply pow2_le; lia).
    lra.
Qed.

Lemma round_pos_pos (x : Q) : 0 < x -> 0 < round_pos x.
Proof.
  intros Hx. destruct (round_pos_range x Hx) as [A _].
  pose proof (pow2_pos (ilog2 x)). lra.
Qed.

Lemma fl_pos_eq (x : Q) : 0 < x -> fl x = round_pos x.
Proof.
  intros Hx. unfold fl. destruct x as [[| p | p] d]; simpl; try reflexivity;
    unfold Qlt in Hx; simpl in Hx; lia.
Qed.

Lemma fl_zero_eq (x : Q) : x == 0 -> fl x = 0.
Proof.
  intros Hx. unfold fl. destruct x as [[| p | p] d]; simpl; try reflexivity;
    unfold Qeq in Hx; simpl in Hx; lia.
Qed.

Lemma fl_pos (x : Q) : 0 < x -> 0 < fl x.
Proof. intros Hx. rewrite fl_pos_eq by exact Hx. apply round_pos_pos, Hx. Qed.

Lemma fl_mono (x y : Q) : 0 <= x -> x <= y -> fl x <= fl y.
Proof.
  intros Hx Hxy. destruct (Qlt_le_dec 0 x) as [P | Z].
  - rewrite (fl_pos_eq x P), (fl_pos_eq y) by lra. apply round_pos_mono; assumption.
  - rewrite (fl_zero_eq x) by lra. destruct (Qlt_le_dec 0 y) as [Py | Zy].
    + apply Qlt_le_weak, fl_pos, Py.
    + rewrite (fl_zero_eq y) by lra. lra.
Qed.

Lemma fl_nonneg (x : Q) : 0 <= x -> 0 <= fl x.
Proof. intros Hx. change 0 with (fl 0) at 1. apply fl_mono; [lra | exact Hx]. Qed.

Lemma ilog2_Z (z : Z) : (0 < z)%Z -> ilog2 (inject_Z z) = Z.log2 z.
Proof.
  intros Hz. unfold ilog2, inject_Z. simpl Qnum. simpl Qden.
  change (Z.log2 1) with 0%Z. rewrite Z.sub_0_r.
  destruct (Z.log2_spec z Hz) as [A _].
  assert (E : Qle_bool (2 ^ Z.log2 z) (z # 1) = true).
  { apply Qle_bool_iff. rewrite pow2_Z by apply Z.log2_nonneg.
    change (z # 1) with (inject_Z z). rewrite <- Zle_Qle. exact A. }
  rewrite E. reflexivity.
Qed.

(** Integers below [2 ^ 24] are [float] values. *)
Lemma fl_Z (z : Z) : (0 <= z < 2 ^ 24)%Z -> fl (inject_Z z) == inject_Z z.
Proof.
  intros [H0 H1]. destruct (Z.eq_dec z 0) as [-> | N]; [reflexivity |].
  assert (Hz : (0 < z)%Z) by lia.
  rewrite fl_pos_eq by (rewrite <- (Zlt_Qlt 0); exact Hz).
  unfold round_pos. rewrite ilog2_Z by exact Hz.
  assert (Hl : (Z.log2 z < 24)%Z) by (apply Z.log2_lt_pow2; lia).
  pose proof (Z.log2_nonneg z) as Hl0.
  set (e := (Z.log2 z - 23)%Z).
  assert (He : 2 ^ e * inject_Z (2 ^ (- e)) == 1).
  { rewrite <- pow2_Z by (unfold e; lia). rewrite <- pow2_add.
    replace (e + - e)%Z with 0%Z by ring. reflexivity. }
  pose proof (pow2_pos e) as P.
  set (W := inject_Z (2 ^ (- e))) in *. set (P2 := 2 ^ e) in *.
  assert (Hy : inject_Z z / P2 == inject_Z (z * 2 ^ (- e))).
  { rewrite inject_Z_mult. fold W.
    apply (Qmult_inj_r _ _ P2); [lra |].
    transitivity (inject_Z z); [field; lra |].
    transitivity (inject_Z z * (P2 * W)); [rewrite He; ring | ring]. }
  rewrite (rne_eq _ _ Hy). rewrite inject_Z_mult. fold W.
  transitivity (inject_Z z * (P2 * W)); [ring | rewrite He; ring].
Qed.

Lemma fl_1 : fl 1 == 1.
Proof. apply (fl_Z 1). lia. Qed.

Lemma fl_100 : fl 100 == 100.
Proof. apply (fl_Z 100). lia. Qed.

End Rounding.

(** ** Percentages *)

Section Percentages.
Local Open Scope Q_scope.

Lemma fl_eq (x y : Q) : 0 <= x -> x == y -> fl x == fl y.
Proof.
  intros Hx E. apply Qle_antisym; apply fl_mono; lra.
Qed.

Lemma f32_of_Z_mono (a b : Z) : (0 <= a <= b)%Z -> f32_of_Z a <= f32_of_Z b.
Proof.
  intros [H0 H1]. apply fl_mono.
  - rewrite <- (Zle_Qle 0). exact H0.
  - rewrite <- Zle_Qle. exact H1.
Qed.

Lemma f32_of_Z_pos (a : Z) : (0 < a)%Z -> 0 < f32_of_Z a.
Proof. intros H. apply fl_pos. rewrite <- (Zlt_Qlt 0). exact H. Qed.

Lemma f32_of_Z_nonneg (a : Z) : (0 <= a)%Z -> 0 <= f32_of_Z a.
Proof. intros H. apply fl_nonneg. rewrite <- (Zle_Qle 0). exact H. Qed.

Lemma div_le (v w d : Q) : 0 < d -> v <= w -> v / d <= w / d.
Proof.
  intros Hd H. apply Qmult_le_compat_r; [exact H |].
  apply Qlt_le_weak, Qinv_lt_0_compat, Hd.
Qed.

Lemma div_nonneg (v d : Q) : 0 < d -> 0 <= v -> 0 <= v / d.
Proof.
  intros Hd H. apply Qle_shift_div_l; [exact Hd | lra].
Qed.

Lemma pct_mono (v w d : Q) : 0 < d -> 0 <= v -> v <= w -> (pct v d <= pct w d)%Z.
Proof.
  intros Hd H0 H. unfold pct, f32_mul, f32_div. apply Qfloor_resp_le.
  pose proof (div_nonneg v d Hd H0) as A. pose proof (div_le v w d Hd H) as B.
  pose proof (fl_nonneg _ A) as C. pose proof (fl_mono _ _ A B) as D.
  apply fl_mono; lra.
Qed.

Lemma pct_zero (d : Q) : 0 < d -> pct 0 d = 0%Z.
Proof.
  intros Hd. unfold pct, f32_mul, f32_div.
  rewrite (fl_zero_eq (0 / d)) by (unfold Qdiv; ring).
  reflexivity.
Qed.

Lemma pct_full (v d : Q) : 0 < d -> v == d -> pct v d = 100%Z.
Proof.
  intros Hd E. unfold pct, f32_mul, f32_div.
  assert (A : v / d == 1) by (rewrite E; field; lra).
  assert (B : fl (v / d) == 1).
  { transitivity (fl 1); [apply fl_eq; lra | apply fl_1]. }
  assert (C : fl (fl (v / d) * 100) == 100).
  { transitivity (fl 100); [apply fl_eq; lra | apply fl_100]. }
  rewrite (Qfloor_comp _ _ C). reflexivity.
Qed.

Lemma pct_range (v d : Q) : 0 < d -> 0 <= v <= d -> (0 <= pct v d <= 100)%Z.
Proof.
  intros Hd [H0 H1]. split.
  - rewrite <- (pct_zero d Hd). apply pct_mono; lra.
  - rewrite <- (pct_full d d Hd) by reflexivity. apply pct_mono; lra.
Qed.
End Percentages.

Lemma sweep_percent_pct (i scanSize : Z) :
  sweep_percent i scanSize = pct (f32_of_Z i) (f32_of_Z scanSize).
Proof. reflexivity. Qed.

Lemma sweep_percent_mono (i j scanSize : Z) :
  0 <= i <= j -> 0 < scanSize -> sweep_percent i scanSize <= sweep_percent j scanSize.
Proof.
  intros H HS. rewrite !sweep_percent_pct. apply pct_mono.
  - apply f32_of_Z_pos, HS.
  - apply f32_of_Z_nonneg. lia.
  - apply f32_of_Z_mono, H.
Qed.

Lemma sweep_percent_range (i scanSize : Z) :
  0 <= i <= scanSize -> 0 < scanSize -> 0 <= sweep_percent i scanSize <= 100.
Proof.
  intros H HS. rewrite sweep_percent_pct. apply pct_range.
  - apply f32_of_Z_pos, HS.
  - split; [apply f32_of_Z_nonneg; lia | apply f32_of_Z_mono; lia].
Qed.

Lemma total_percent_pct (i count percent : Z) :
  total_percent i count percent = pct (module_share i percent) (f32_of_Z count).
Proof. reflexivity. Qed.

Section Shares.
Local Open Scope Q_scope.

Lemma fraction_range (p : Z) : (0 <= p <= 100)%Z -> 0 <= f32_div (f32_of_Z p) 100 <= 1.
Proof.
  intros Hp. unfold f32_div.
  assert (A : 0 <= f32_of_Z p) by (apply f32_of_Z_nonneg; lia).
  assert (B : f32_of_Z p <= 100).
  { apply Qle_trans with (fl 100); [apply (f32_of_Z_mono p 100); lia |].
    apply Qle_lteq. right. apply fl_100. }
  assert (C : 0 <= f32_of_Z p / 100) by (apply div_nonneg; lra).
  assert (D : f32_of_Z p / 100 <= 1) by (apply Qle_shift_div_r; lra).
  split; [apply fl_nonneg, C |].
  apply Qle_trans with (fl 1); [apply fl_mono; assumption |].
  apply Qle_lteq. right. apply fl_1.
Qed.

Lemma fraction_mono (p q : Z) :
  (0 <= p <= q)%Z -> f32_div (f32_of_Z p) 100 <= f32_div (f32_of_Z q) 100.
Proof.
  intros H. unfold f32_div.
  pose proof (f32_of_Z_mono p q H) as A.
  assert (B : 0 <= f32_of_Z p) by (apply f32_of_Z_nonneg; lia).
  apply fl_mono; [apply div_nonneg; lra | apply div_le; lra].
Qed.

Lemma module_share_range (i p : Z) :
  (0 <= i)%Z -> (i + 1 < 2 ^ 24)%Z -> (0 <= p <= 100)%Z ->
  inject_Z i <= module_share i p <= inject_Z (i + 1).
Proof.
  intros Hi Hn Hp. unfold module_share, f32_add.
  destruct (fraction_range p Hp) as [A B].
  assert (E : f32_of_Z i == inject_Z i) by (apply fl_Z; lia).
  assert (Qi : 0 <= inject_Z i) by (rewrite <- (Zle_Qle 0); exact Hi).
  assert (F : fl (inject_Z (i + 1)) == inject_Z (i + 1)) by (apply fl_Z; lia).
  assert (G : inject_Z (i + 1) == inject_Z i + 1)
    by (rewrite inject_Z_plus; reflexivity).
  split.
  - apply Qle_trans with (fl (inject_Z i)); [fold (f32_of_Z i); lra |].
    apply fl_mono; lra.
  - apply Qle_trans with (fl (inject_Z (i + 1))); [| lra].
    apply fl_mono; lra.
Qed.

Lemma module_share_mono (i p q : Z) :
  (0 <= i)%Z -> (0 <= p <= q)%Z -> module_share i p <= module_share i q.
Proof.
  intros Hi H. unfold module_share, f32_add.
  pose proof (fraction_mono p q H) as A.
  assert (B : 0 <= f32_of_Z i) by (apply f32_of_Z_nonneg; exact Hi).
  assert (C : 0 <= f32_div (f32_of_Z p) 100).
  { unfold f32_div. apply fl_nonneg, div_nonneg; [lra |]. apply f32_of_Z_nonneg; lia. }
  apply fl_mono; lra.
Qed.
End Shares.

Lemma module_floor_mono (i j count : Z) :
  0 <= i <= j -> 0 < count -> module_floor i count <= module_floor j count.
Proof.
  intros H Hc. apply pct_mono.
  - apply f32_of_Z_pos, Hc.
  - rewrite <- (Zle_Qle 0). lia.
  - rewrite <- Zle_Qle. lia.
Qed.

Lemma module_floor_full (count : Z) : 0 < count < 2 ^ 24 -> module_floor count count = 100.
Proof.
  intros H. apply pct_full; [apply f32_of_Z_pos; lia |].
  symmetry. apply fl_Z. lia.
Qed.

Lemma module_floor_range (i count : Z) :
  0 <= i <= count -> 0 < count < 2 ^ 24 -> 0 <= module_floor i count <= 100.
Proof.
  intros H Hc. split.
  - replace 0 with (pct 0%Q (f32_of_Z count)) at 1
      by (apply pct_zero, f32_of_Z_pos; lia).
    apply (module_floor_mono 0 i); lia.
  - rewrite <- (module_floor_full count Hc). apply module_floor_mono; lia.
Qed.

Lemma total_percent_range (i count p : Z) :
  0 <= i -> i + 1 < 2 ^ 24 -> 0 < count -> 0 <= p <= 100 ->
  module_floor i count <= total_percent i count p <= module_floor (i + 1) count.
Proof.
  intros Hi Hn Hc Hp. rewrite total_percent_pct.
  destruct (module_share_range i p Hi Hn Hp) as [A B].
  assert (Qi : (0 <= inject_Z i)%Q) by (rewrite <- (Zle_Qle 0); exact Hi).
  pose proof (f32_of_Z_pos count Hc) as Pc.
  split; apply pct_mono; try assumption. lra.
Qed.

Lemma total_percent_mono (i count p q : Z) :
  0 <= i -> 0 < count -> 0 <= p <= q ->
  total_percent i count p <= total_percent i count q.
Proof.
  intros Hi Hc H. rewrite !total_percent_pct.
  apply pct_mono.
  - apply f32_of_Z_pos, Hc.
  - unfold module_share, f32_add. apply fl_nonneg.
    assert (A : (0 <= f32_of_Z i)%Q) by (apply f32_of_Z_nonneg; exact Hi).
    assert (B : (0 <= f32_div (f32_of_Z p) 100)%Q).
    { unfold f32_div. apply fl_nonneg, div_nonneg; [lra |]. apply f32_of_Z_nonneg; lia. }
    lra.
  - apply module_share_mono; assumption.
Qed.

(** ** The error of single precision *)

Section RoundingError.
Local Open Scope Q_scope.

Lemma rne_error (x : Q) : x - (1 # 2) <= inject_Z (rne x) <= x + (1 # 2).
Proof.
  pose proof (Qfloor_le x) as A. pose proof (Qlt_floor x) as B.
  rewrite inject_Z_plus in B. change (inject_Z 1) with 1 in B.
  unfold rne.
  destruct (Qcompare_spec (x - inject_Z (Qfloor x)) (1 # 2)) as [E | L | G].
  - destruct (Z.even (Qfloor x)).
    + lra.
    + rewrite inject_Z_plus. change (inject_Z 1) with 1. lra.
  - lra.
  - rewrite inject_Z_plus. change (inject_Z 1) with 1. lra.
Qed.

(** A rounding moves a value by at most one part in [2 ^ 24]. *)
Lemma fl_error (x : Q) : 0 <= x -> (1 - f32_eps) * x <= fl x <= (1 + f32_eps) * x.
Proof.
  intros H0. destruct (Qlt_le_dec 0 x) as [P | Z0].
  - rewrite fl_pos_eq by exact P. unfold round_pos.
    destruct (scaled_range x P) as [A _].
    set (e := (ilog2 x - 23)%Z) in *.
    pose proof (pow2_pos e) as Pe.
    set (W := 2 ^ e) in *. set (y := x / W) in *.
    pose proof (rne_error y) as [R1 R2].
    assert (Hx : x == y * W) by (unfold y; field; lra).
    change (inject_Z (2 ^ 23)) with 8388608 in A.
    unfold f32_eps. set (r := inject_Z (rne y)) in *.
    assert (B : W <= x * (1 # 8388608)).
    { rewrite Hx. nra. }
    split; nra.
  - rewrite (fl_zero_eq x) by lra. unfold f32_eps. split; lra.
Qed.

Lemma floor_within_one (t x : Q) :
  x - 1 < t -> t < x + 1 -> (Qfloor x - 1 <= Qfloor t <= Qfloor x + 1)%Z.
Proof.
  intros L H.
  pose proof (Qfloor_le x) as A. pose proof (Qlt_floor x) as B.
  pose proof (Qfloor_le t) as C. pose proof (Qlt_floor t) as D.
  rewrite inject_Z_plus in B, D. change (inject_Z 1) with 1 in B, D.
  split.
  - assert (G : inject_Z (Qfloor x - 1) < inject_Z (Qfloor t + 1)).
    { replace (Qfloor x - 1)%Z with (Qfloor x + -1)%Z by lia.
      rewrite !inject_Z_plus. change (inject_Z 1) with 1. change (inject_Z (-1)) with (-1).
      lra. }
    rewrite <- Zlt_Qlt in G. lia.
  - assert (G : inject_Z (Qfloor t) < inject_Z (Qfloor x + 2)).
    { rewrite inject_Z_plus. change (inject_Z 2) with 2. lra. }
    rewrite <- Zlt_Qlt in G. lia.
Qed.


(** So is the percentage of the sweep. *)
Lemma sweep_percent_error (i scanSize : Z) :
  (0 <= i <= scanSize)%Z -> (0 < scanSize)%Z ->
  (exact_percent i scanSize - 1 <= sweep_percent i scanSize <= exact_percent i scanSize + 1)%Z.
Proof.
  intros Hi Hs. unfold sweep_percent, exact_percent.
  assert (Qi : 0 <= inject_Z i) by (rewrite <- (Zle_Qle 0); lia).
  assert (Qs : 0 < inject_Z scanSize) by (rewrite <- (Zlt_Qlt 0); lia).
  assert (Qis : inject_Z i <= inject_Z scanSize) by (rewrite <- Zle_Qle; lia).
  set (qi := inject_Z i) in *. set (qs := inject_Z scanSize) in *.
  unfold f32_of_Z. fold qi qs.
  destruct (fl_error qi Qi) as [A1 A2]. destruct (fl_error qs) as [S1 S2]; [lra |].
  unfold f32_eps in *.
  pose proof (fl_nonneg qi Qi) as A0.
  set (a := fl qi) in *. set (s := fl qs) in *.
  assert (Ps : 0 < s) by lra.
  set (x := qi / qs).
  assert (Hx : 0 <= x <= 1).
  { unfold x. split; [apply Qle_shift_div_l | apply Qle_shift_div_r]; lra. }
  assert (Ex : x * qs == qi) by (unfold x; field; lra).
  assert (Hq : (16777215 # 16777217) * x <= a / s <= (16777217 # 16777215) * x).
  { split; [apply Qle_shift_div_l | apply Qle_shift_div_r]; try exact Ps; nra. }
  set (u := a / s) in *.
  destruct (fl_error u) as [D1 D2]; [lra |]. unfold f32_eps in D1, D2.
  unfold f32_mul, f32_div. fold u. set (d := fl u) in *.
  destruct (fl_error (d * 100)) as [T1 T2]; [lra |]. unfold f32_eps in T1, T2.
  set (t := fl (d * 100)) in *.
  apply floor_within_one; lra.
Qed.
End RoundingError.

(** ** Lists *)

Section Lists.
Context {A B : Type}.

Lemma sorted_app (R : A -> A -> Prop) (l1 l2 : list A) :
  StronglySorted R l1 -> StronglySorted R l2 ->
  (forall x y, In x l1 -> In y l2 -> R x y) ->
  StronglySorted R (l1 ++ l2).
Proof.
  induction l1 as [| a l1 IH]; intros H1 H2 H; simpl; [exact H2 |].
  inversion H1 as [| ? ? S F]; subst. constructor.
  - apply IH; [exact S | exact H2 |]. intros x y Hx Hy. apply H; [right; exact Hx | exact Hy].
  - apply Forall_app. split; [exact F |].
    apply Forall_forall. intros y Hy. apply H; [left; reflexivity | exact Hy].
Qed.

Lemma sorted_filter (R : A -> A -> Prop) (f : A -> bool) (l : list A) :
  StronglySorted R l -> StronglySorted R (filter f l).
Proof.
  induction 1 as [| a l S IH F]; simpl; [constructor |].
  destruct (f a); [| exact IH]. constructor; [exact IH |].
  apply Forall_forall. intros y Hy. apply filter_In in Hy.
  rewrite Forall_forall in F. apply F, Hy.
Qed.

Lemma sorted_map (R : A -> A -> Prop) (R' : B -> B -> Prop) (P : A -> Prop)
    (f : A -> B) (l : list A) :
  (forall x y, P x -> P y -> R x y -> R' (f x) (f y)) ->
  Forall P l -> StronglySorted R l -> StronglySorted R' (map f l).
Proof.
  intros Hf HP. induction 1 as [| a l S IH F]; simpl; [constructor |].
  inversion HP as [| ? ? Pa Pl]; subst. constructor; [apply IH, Pl |].
  rewrite Forall_forall in *. intros y Hy. apply in_map_iff in Hy.
  destruct Hy as [x [<- Hx]]. apply Hf; [exact Pa | apply Pl, Hx | apply F, Hx].
Qed.
End Lists.

Lemma overall_app (a b : list Event) : overall (a ++ b) = overall a ++ overall b.
Proof. apply flat_map_app. Qed.

Lemma last_snoc (l : list Z) (x d : Z) : last (l ++ [x]) d = x.
Proof. apply last_last. Qed.

(** ** The sweep *)

Section SweepFacts.
Context {I U : Type}.
Variable pf : Platform.
Variable cp : Capstone I.
Variable scanSize : Z.
Variable data : list byte.
Variable Callback : CBREF I U.

Lemma sweep_step_events (prog : CBPROGRESS) (st : Sweep U) :
  snd (sweep_step pf cp scanSize data Callback prog st) = report scanSize prog (off st).
Proof.
  unfold sweep_step, report.
  destruct (Disassemble cp _ _ _) as [insn |]; [destruct (Callback _ _) |]; reflexivity.
Qed.

Lemma sweep_step_state (prog prog' : CBPROGRESS) (st : Sweep U) :
  fst (sweep_step pf cp scanSize data Callback prog st)
  = fst (sweep_step pf cp scanSize data Callback prog' st).
Proof.
  unfold sweep_step.
  destruct (Disassemble cp _ _ _) as [insn |]; [destruct (Callback _ _) |]; reflexivity.
Qed.

Lemma sweep_step_off (prog : CBPROGRESS) (st : Sweep U) :
  off (fst (sweep_step pf cp scanSize data Callback prog st))
  = wrap (ptr_bits pf) (off st + step_length pf cp scanSize data st).
Proof.
  unfold sweep_step, step_length.
  destruct (Disassemble cp _ _ _) as [insn |]; [destruct (Callback _ _) |]; reflexivity.
Qed.

Lemma sweep_unfold (prog : CBPROGRESS) (fuel : nat) (st : Sweep U) :
  off st < scanSize ->
  sweep pf cp (S fuel) scanSize data Callback prog st
  = match sweep pf cp fuel scanSize data Callback prog
            (fst (sweep_step pf cp scanSize data Callback prog st)) with
    | Some (st2, ev2) => Some (st2, report scanSize prog (off st) ++ ev2)
    | None => None
    end.
Proof.
  intros H. simpl. apply Z.ltb_lt in H. rewrite H.
  rewrite <- sweep_step_events.
  destruct (sweep_step pf cp scanSize data Callback prog st) as [st1 ev1]. reflexivity.
Qed.

Lemma sweep_done (prog : CBPROGRESS) (fuel : nat) (st : Sweep U) :
  scanSize <= off st ->
  sweep pf cp fuel scanSize data Callback prog st = Some (st, []).
Proof.
  intros H. apply Z.ltb_ge in H. destruct fuel; simpl; rewrite H; reflexivity.
Qed.

Lemma sweep_events (prog : CBPROGRESS) (fuel : nat) (st st' : Sweep U) (ev : list Event) :
  sweep pf cp fuel scanSize data Callback prog st = Some (st', ev) ->
  ev = flat_map (report scanSize prog) (sweep_offsets pf cp fuel scanSize data Callback st).
Proof.
  revert st st' ev. induction fuel as [| fuel IH]; intros st st' ev H.
  - simpl in *. destruct (off st <? scanSize); [discriminate |].
    injection H as _ <-. reflexivity.
  - destruct (Z.ltb_spec (off st) scanSize) as [L | G].
    + rewrite sweep_unfold in H by exact L.
      simpl. apply Z.ltb_lt in L. rewrite L.
      rewrite (sweep_step_state prog (fun _ => [])) in H.
      destruct (sweep pf cp fuel scanSize data Callback prog _) as [[st2 ev2] |] eqn:E;
        [| discriminate].
      injection H as _ <-. simpl. f_equal. apply (IH _ _ _ E).
    + rewrite sweep_done in H by exact G. injection H as _ <-.
      simpl. apply Z.ltb_ge in G. rewrite G. reflexivity.
Qed.

(** *** Under a decoder that advances *)

Variable maxlen : Z.
Hypothesis Hdec : decoder_advances cp maxlen.
Hypothesis Hmax : 1 <= maxlen.
Hypothesis Hfit : scanSize + maxlen <= 2 ^ ptr_bits pf.

Lemma step_length_range (st : Sweep U) : 1 <= step_length pf cp scanSize data st <= maxlen.
Proof.
  unfold step_length. destruct (Disassemble cp _ _ _) as [insn |] eqn:E.
  - apply (Hdec _ _ _ _ E).
  - lia.
Qed.

Lemma sweep_step_advance (prog : CBPROGRESS) (st : Sweep U) :
  0 <= off st < scanSize ->
  off (fst (sweep_step pf cp scanSize data Callback prog st))
  = off st + step_length pf cp scanSize data st.
Proof.
  intros H. rewrite sweep_step_off. unfold wrap.
  pose proof (step_length_range st). apply Z.mod_small. lia.
Qed.

Lemma sweep_enough (prog : CBPROGRESS) (fuel : nat) (st : Sweep U) :
  0 <= off st -> (Z.to_nat (scanSize - off st) <= fuel)%nat ->
  exists st' ev,
    sweep pf cp fuel scanSize data Callback prog st = Some (st', ev) /\ scanSize <= off st'.
Proof.
  revert st. induction fuel as [| fuel IH]; intros st H0 Hf.
  - exists st, []. split; [apply sweep_done |]; lia.
  - destruct (Z.ltb_spec (off st) scanSize) as [L | G].
    + rewrite sweep_unfold by exact L.
      pose proof (sweep_step_advance prog st (conj H0 L)) as A.
      pose proof (step_length_range st) as R.
      destruct (IH (fst (sweep_step pf cp scanSize data Callback prog st)))
        as [st' [ev [E F]]]; [lia | lia |].
      rewrite E. eauto.
    + exists st, []. split; [apply sweep_done |]; lia.
Qed.

Lemma sweep_offsets_sorted (fuel : nat) (st : Sweep U) :
  0 <= off st ->
  StronglySorted Z.lt (sweep_offsets pf cp fuel scanSize data Callback st) /\
  Forall (fun j => off st <= j < scanSize)
         (sweep_offsets pf cp fuel scanSize data Callback st).
Proof.
  revert st. induction fuel as [| fuel IH]; intros st H0; simpl.
  - destruct (off st <? scanSize); split; constructor.
  - destruct (Z.ltb_spec (off st) scanSize) as [L | G]; [| split; constructor].
    pose proof (sweep_step_advance (fun _ => []) st (conj H0 L)) as A.
    pose proof (step_length_range st) as R.
    destruct (IH (fst (sweep_step pf cp scanSize data Callback (fun _ => []) st)))
      as [S F]; [lia |].
    split.
    + constructor; [exact S |]. eapply Forall_impl; [| exact F]. simpl. intros j Hj. lia.
    + constructor; [lia |]. eapply Forall_impl; [| exact F]. simpl. intros j Hj. lia.
Qed.
End SweepFacts.

(** ** Percentages of a range scan *)

Lemma report_percents (scanSize : Z) (prog : CBPROGRESS) (offsets : list Z) :
  flat_map (report scanSize prog) offsets = flat_map prog (percents_of scanSize offsets).
Proof.
  unfold percents_of. induction offsets as [| i l IH]; simpl; [reflexivity |].
  unfold report at 1, aligned at 1. destruct (i mod 4096 =? 0); simpl; rewrite IH; reflexivity.
Qed.

Lemma percents_sorted (scanSize : Z) (offsets : list Z) :
  StronglySorted Z.lt offsets -> Forall (fun j => 0 <= j < scanSize) offsets ->
  StronglySorted Z.le (percents_of scanSize offsets) /\
  Forall (fun p => 0 <= p <= 100) (percents_of scanSize offsets).
Proof.
  intros S F. unfold percents_of. split.
  - apply (sorted_map Z.lt Z.le (fun j => 0 <= j < scanSize)).
    + intros x y Hx Hy L. apply sweep_percent_mono; lia.
    + apply Forall_forall. intros x Hx. apply filter_In in Hx.
      rewrite Forall_forall in F. apply F, Hx.
    + apply sorted_filter, S.
  - apply Forall_forall. intros p Hp. apply in_map_iff in Hp.
    destruct Hp as [j [<- Hj]]. apply filter_In in Hj.
    rewrite Forall_forall in F. pose proof (F j (proj1 Hj)).
    apply sweep_percent_range; lia.
Qed.

Lemma percents_snoc_sorted (ps : list Z) :
  StronglySorted Z.le ps -> Forall (fun p => 0 <= p <= 100) ps ->
  StronglySorted Z.le (ps ++ [100]) /\ Forall (fun p => 0 <= p <= 100) (ps ++ [100]).
Proof.
  intros S F. split.
  - apply sorted_app; [exact S | repeat constructor |].
    intros x y Hx [<- | []]. rewrite Forall_forall in F. apply (F x Hx).
  - apply Forall_app. split; [exact F | repeat constructor; lia].
Qed.

Section ScanFacts.
Context {I U : Type}.
Variable pf : Platform.
Variable dbg : Debuggee.
Variable cp : Capstone I.

(** What a scan returns and emits, whatever the decoder. *)
Lemma RefFindInRange_inv (fuel : nat) (scanStart scanSize : Z) (Callback : CBREF I U)
    (UserData : U) (Silent : bool) (refInfo refInfo' : REFINFO U) (initCallBack : bool)
    (prog : CBPROGRESS) (ret : Z) (ev : list Event) :
  RefFindInRange pf dbg cp fuel scanStart scanSize Callback UserData Silent refInfo
    initCallBack prog = Some (ret, refInfo', ev) ->
  (MemRead dbg scanStart scanSize = None /\ ret = 0 /\ refInfo' = refInfo /\
   ev = EvMemRead scanStart scanSize :: read_error Silent) \/
  (exists data,
     MemRead dbg scanStart scanSize = Some data /\ ret = refcount refInfo' /\
     ev = EvMemRead scanStart scanSize ::
          flat_map prog
            (percents_of scanSize
               (sweep_offsets pf cp fuel scanSize data Callback
                  {| off := 0; addr := scanStart;
                     info := if initCallBack then snd (Callback None refInfo)
                             else refInfo |}) ++ [100])).
Proof.
  unfold RefFindInRange. intros H.
  destruct (MemRead dbg scanStart scanSize) as [data |].
  - right. exists data.
    destruct (sweep pf cp fuel scanSize data Callback prog _) as [[st ev1] |] eqn:E;
      [| discriminate].
    injection H as <- <- <-. split; [reflexivity |]. split; [reflexivity |].
    rewrite (sweep_events pf cp _ _ _ _ _ _ _ _ E), report_percents.
    rewrite flat_map_app. simpl. rewrite app_nil_r. reflexivity.
  - left. injection H as <- <- <-. repeat split; reflexivity.
Qed.

Variable maxlen : Z.
Variable fuel : nat.
Hypothesis Hdec : decoder_advances cp maxlen.
Hypothesis Hmax : 1 <= maxlen.
Hypothesis Hfit : reads_fit pf dbg maxlen fuel.

(** With a decoder that advances a scan returns, and its percentages
    rise from 0 to 100. *)
Lemma RefFindInRange_runs (scanStart scanSize : Z) (Callback : CBREF I U)
    (UserData : U) (Silent : bool) (refInfo : REFINFO U) (initCallBack : bool)
    (prog : CBPROGRESS) :
  exists ret refInfo' ev,
    RefFindInRange pf dbg cp fuel scanStart scanSize Callback UserData Silent refInfo
      initCallBack prog = Some (ret, refInfo', ev) /\
    ((MemRead dbg scanStart scanSize = None /\ ret = 0 /\
      ev = EvMemRead scanStart scanSize :: read_error Silent) \/
     (exists ps,
        MemRead dbg scanStart scanSize <> None /\
        ret = refcount refInfo' /\
        ev = EvMemRead scanStart scanSize :: flat_map prog (ps ++ [100]) /\
        StronglySorted Z.le (ps ++ [100]) /\
        Forall (fun p => 0 <= p <= 100) (ps ++ [100]))).
Proof.
  destruct (MemRead dbg scanStart scanSize) as [data |] eqn:M.
  - destruct (Hfit _ _ _ M) as [F1 F2].
    set (st0 := {| off := 0; addr := scanStart;
                   info := if initCallBack then snd (Callback None refInfo)
                           else refInfo |}).
    destruct (sweep_enough pf cp scanSize data Callback maxlen Hdec Hmax F1 prog fuel st0)
      as [st' [ev1 [E _]]]; [simpl; lia | simpl; lia |].
    assert (R : RefFindInRange pf dbg cp fuel scanStart scanSize Callback UserData Silent
                  refInfo initCallBack prog
                = Some (refcount (info st'), info st',
                        EvMemRead scanStart scanSize :: ev1 ++ prog 100)).
    { unfold RefFindInRange. rewrite M. fold st0. rewrite E. reflexivity. }
    exists (refcount (info st')), (info st'), (EvMemRead scanStart scanSize :: ev1 ++ prog 100).
    split; [exact R |]. right.
    destruct (RefFindInRange_inv _ _ _ _ _ _ _ _ _ _ _ _ R) as [[C _] | [d [Md [_ Ev]]]];
      [congruence |].
    rewrite M in Md. injection Md as <-. fold st0 in Ev.
    exists (percents_of scanSize (sweep_offsets pf cp fuel scanSize data Callback st0)).
    split; [congruence |]. split; [reflexivity |]. split; [exact Ev |].
    destruct (sweep_offsets_sorted pf cp scanSize data Callback maxlen Hdec Hmax F1 fuel st0)
      as [S F]; [simpl; lia |].
    destruct (percents_sorted scanSize _ S) as [S1 F3].
    { eapply Forall_impl; [| exact F]. simpl. intros j Hj. exact Hj. }
    apply percents_snoc_sorted; assumption.
  - exists 0, refInfo, (EvMemRead scanStart scanSize :: read_error Silent).
    split; [| left; repeat split; reflexivity].
    unfold RefFindInRange. rewrite M. reflexivity.
Qed.
End ScanFacts.

(** ** Overall percentages of the event lists *)

Lemma overall_region (l : list Z) : overall (flat_map region_progress l) = l.
Proof. induction l as [| p l IH]; simpl; [reflexivity | f_equal; exact IH]. Qed.

Lemma overall_module (l : list Z) : overall (flat_map module_progress l) = l.
Proof. induction l as [| p l IH]; simpl; [reflexivity | f_equal; exact IH]. Qed.

Lemma overall_all_modules (i count : Z) (nm : string) (l : list Z) :
  overall (flat_map (all_modules_progress i count nm) l) = map (total_percent i count) l.
Proof. induction l as [| p l IH]; simpl; [reflexivity | f_equal; exact IH]. Qed.

Lemma overall_read_error (Silent : bool) : overall (read_error Silent) = [].
Proof. destruct Silent; reflexivity. Qed.

Lemma reads_app (a b : list Event) : reads (a ++ b) = reads a ++ reads b.
Proof. apply flat_map_app. Qed.

Lemma reads_region (l : list Z) : reads (flat_map region_progress l) = [].
Proof. induction l as [| p l IH]; simpl; [reflexivity | exact IH]. Qed.

Lemma reads_module (l : list Z) : reads (flat_map module_progress l) = [].
Proof. induction l as [| p l IH]; simpl; [reflexivity | exact IH]. Qed.

Lemma reads_read_error (Silent : bool) : reads (read_error Silent) = [].
Proof. destruct Silent; reflexivity. Qed.

(** ** The loop over the modules *)

Section LoopFacts.
Context {I U : Type}.
Variable pf : Platform.
Variable dbg : Debuggee.
Variable cp : Capstone I.
Variable fuel : nat.
Variable Callback : CBREF I U.
Variable UserData : U.
Variable Silent : bool.
Variable count : Z.

Lemma modules_loop_returned (rest : list MODINFO) (i : Z) (refInfo : REFINFO U)
    (ret : Z) (ev : list Event) :
  modules_loop pf dbg cp fuel Callback UserData Silent count rest i refInfo
    = Some (Returned ret, ev) -> ret = 0.
Proof.
  revert i refInfo ev. induction rest as [| m rest IH]; intros i refInfo ev H; simpl in H.
  - discriminate.
  - destruct (RefFindInRange _ _ _ _ _ _ _ _ _ _ _ _) as [[[r ri] ev1] |]; [| discriminate].
    destruct (Z.eqb_spec r 0) as [-> | N].
    + injection H as <- _. reflexivity.
    + destruct (modules_loop _ _ _ _ _ _ _ _ rest _ _) as [[x ev2] |] eqn:E; [| discriminate].
      injection H as -> _. apply (IH _ _ _ E).
Qed.

(** Scanning [pre ++ rest] is scanning [pre] and then, unless a scan of
    [pre] returned, [rest]. *)
Lemma modules_loop_app (pre rest : list MODINFO) (i : Z) (refInfo : REFINFO U) :
  modules_loop pf dbg cp fuel Callback UserData Silent count (pre ++ rest) i refInfo
  = match modules_loop pf dbg cp fuel Callback UserData Silent count pre i refInfo with
    | Some (Finished refInfo1, ev1) =>
        match modules_loop pf dbg cp fuel Callback UserData Silent count rest
                (i + Z.of_nat (List.length pre)) refInfo1 with
        | Some (r, ev2) => Some (r, ev1 ++ ev2)
        | None => None
        end
    | other => other
    end.
Proof.
  revert i refInfo. induction pre as [| m pre IH]; intros i refInfo.
  - simpl. rewrite Z.add_0_r.
    destruct (modules_loop _ _ _ _ _ _ _ _ rest _ _) as [[r ev2] |]; reflexivity.
  - cbn [app modules_loop].
    destruct (RefFindInRange _ _ _ _ _ _ _ _ _ _ _ _) as [[[r ri] ev1] |]; [| reflexivity].
    destruct (r =? 0); [reflexivity |].
    rewrite IH.
    destruct (modules_loop _ _ _ _ _ _ _ _ pre _ _) as [[[ret | ri1] ev2] |]; try reflexivity.
    replace (i + 1 + Z.of_nat (List.length pre)) with (i + Z.of_nat (List.length (m :: pre)))
      by (simpl List.length; lia).
    destruct (modules_loop _ _ _ _ _ _ _ _ rest _ _) as [[r2 ev3] |]; [| reflexivity].
    rewrite <- !app_assoc. reflexivity.
Qed.

Variable maxlen : Z.
Hypothesis Hdec : decoder_advances cp maxlen.
Hypothesis Hmax : 1 <= maxlen.
Hypothesis Hfit : reads_fit pf dbg maxlen fuel.
Hypothesis Hcount : count < 2 ^ 24.

Lemma scan_overall_all_modules (i : Z) (ps : list Z) :
  0 <= i -> i + 1 <= count ->
  StronglySorted Z.le ps -> Forall (fun p => 0 <= p <= 100) ps ->
  StronglySorted Z.le (map (total_percent i count) ps) /\
  Forall (fun q => module_floor i count <= q <= module_floor (i + 1) count)
         (map (total_percent i count) ps).
Proof.
  intros Hi Hc S F. split.
  - apply (sorted_map Z.le Z.le (fun p => 0 <= p <= 100)); [| exact F | exact S].
    intros x y Hx Hy L. apply total_percent_mono; lia.
  - apply Forall_forall. intros q Hq. apply in_map_iff in Hq.
    destruct Hq as [p [<- Hp]]. rewrite Forall_forall in F.
    apply total_percent_range; [lia | lia | lia | apply F, Hp].
Qed.

Lemma modules_loop_progress (rest : list MODINFO) (i : Z) (refInfo : REFINFO U) :
  0 <= i -> i + Z.of_nat (List.length rest) <= count ->
  exists r ev,
    modules_loop pf dbg cp fuel Callback UserData Silent count rest i refInfo = Some (r, ev) /\
    StronglySorted Z.le (overall ev) /\
    Forall (fun q => module_floor i count <= q <= 100) (overall ev).
Proof.
  revert i refInfo. induction rest as [| m rest IH]; intros i refInfo Hi Hc.
  - exists (Finished refInfo), []. repeat split; constructor.
  - simpl List.length in Hc. simpl modules_loop.
    destruct (RefFindInRange_runs pf dbg cp maxlen fuel Hdec Hmax Hfit (base m) (size m)
                Callback UserData Silent refInfo (i =? 0)
                (all_modules_progress i count (name m)))
      as [ret [ri [ev1 [R Sh]]]].
    rewrite R.
    assert (Hup : module_floor (i + 1) count <= 100)
      by (apply module_floor_range; lia).
    assert (Hmono : module_floor i count <= module_floor (i + 1) count)
      by (apply module_floor_mono; lia).
    assert (O1 : StronglySorted Z.le (overall ev1) /\
                 Forall (fun q => module_floor i count <= q <= module_floor (i + 1) count)
                        (overall ev1)).
    { destruct Sh as [[_ [_ ->]] | [ps [_ [_ [-> [Hs F]]]]]].
      - simpl. rewrite overall_read_error. split; constructor.
      - simpl. rewrite overall_all_modules.
        apply scan_overall_all_modules; [lia | lia | exact Hs | exact F]. }
    destruct O1 as [S1 F1].
    destruct (ret =? 0).
    + exists (Returned ret), ev1. split; [reflexivity |]. split; [exact S1 |].
      eapply Forall_impl; [| exact F1]. simpl. intros q Hq. lia.
    + destruct (IH (i + 1) ri) as [r [ev2 [E [S2 F2]]]]; [lia | lia |].
      rewrite E. exists r, (ev1 ++ [GuiReferenceReloadData] ++ ev2).
      split; [reflexivity |]. rewrite overall_app. simpl.
      rewrite Forall_forall in F1, F2. split.
      * apply sorted_app; [exact S1 | exact S2 |].
        intros x y Hx Hy. pose proof (F1 x Hx). pose proof (F2 y Hy). lia.
      * apply Forall_forall. intros q Hq. apply in_app_or in Hq.
        destruct Hq as [Hq | Hq]; [pose proof (F1 q Hq) | pose proof (F2 q Hq)]; lia.
Qed.
End LoopFacts.

(** ** Forwarded percentages *)

Section Forwarded.
Variable ok : Z -> string -> Z -> Prop.




Context {I U : Type}.
Variable pf : Platform.
Variable dbg : Debuggee.
Variable cp : Capstone I.


End Forwarded.

(** ** The small debuggee *)

Lemma capstone_advances : decoder_advances Demo.capstone 2.
Proof.
  intros address data sz insn H. simpl in H. unfold Demo.decode in H.
  destruct data as [| b rest]; [discriminate |].
  destruct (Byte.eqb b x90 && (1 <=? sz)).
  - injection H as <-. simpl. lia.
  - destruct (Byte.eqb b xeb && (2 <=? sz) && negb (Nat.eqb (List.length (firstn 1 rest)) 0));
      [| discriminate].
    injection H as <-. simpl. lia.
Qed.

Lemma process_reads_fit (imgs : list Demo.image) (bound : Z) (fuel : nat) :
  Forall (fun im => size (fst im) <= bound) imgs ->
  bound + 2 <= 2 ^ 64 -> bound <= Z.of_nat fuel ->
  reads_fit Demo.x64 (Demo.process imgs) 2 fuel.
Proof.
  intros F Hb Hf a n data H. simpl in H.
  destruct (Demo.find_image imgs a) as [im |] eqn:E; [| discriminate].
  apply find_some in E. destruct E as [Hin Hins].
  rewrite Forall_forall in F. pose proof (F im Hin) as Hsz.
  unfold Demo.inside in Hins. apply andb_true_iff in Hins. destruct Hins as [H1 H2].
  destruct ((0 <=? n) && (a + n <=? base (fst im) + size (fst im))) eqn:G; [| discriminate].
  apply andb_true_iff in G. destruct G as [G1 G2].
  simpl. lia.
Qed.

(** ** The region scope *)

(** With a size the range of the region scope is computed from the size
    alone: the size of the region does not enter it. *)
Lemma region_range_sized (pf : Platform) (Address Size regionBase regionSize : Z) :
  Size <> 0 -> 0 <= Address - regionBase <= Size -> Size < 2 ^ ptr_bits pf ->
  region_range pf Address Size regionBase regionSize
  = (Address, Size - (Address - regionBase)).
Proof.
  intros Hs Ha Hb. unfold region_range, wrap.
  apply Z.eqb_neq in Hs. rewrite Hs.
  rewrite (Z.mod_small (Address - regionBase)) by lia.
  rewrite (Z.mod_small (Size - (Address - regionBase))) by lia.
  f_equal. lia.
Qed.

(** The region scope returns the sum of the count and the value of the
    scan, which is the count once more. *)
Lemma RefFind_region_doubles {I U : Type} (pf : Platform) (dbg : Debuggee) (cp : Capstone I)
    (fuel : nat) (Address Size : Z) (Callback : CBREF I U) (UserData : U) (Silent : bool)
    (Name : string) (regionBase regionSize ret : Z) (refInfo' : REFINFO U)
    (ev : list Event) :
  MemFindBaseAddr dbg Address = (regionBase, regionSize) ->
  regionBase <> 0 -> regionSize <> 0 ->
  RefFindInRange pf dbg cp fuel
    (fst (region_range pf Address Size regionBase regionSize))
    (snd (region_range pf Address Size regionBase regionSize))
    Callback UserData Silent
    (init_refInfo UserData
       (region_fullName pf dbg Name (fst (region_range pf Address Size regionBase regionSize))))
    true region_progress = Some (ret, refInfo', ev) ->
  ret <> 0 ->
  RefFind pf dbg cp fuel Address Size Callback UserData Silent Name CURRENT_REGION
  = Some (to_int (ret + ret),
          (ev ++ [GuiReferenceReloadData])
          ++ [GuiReferenceSetProgress 100; GuiReferenceReloadData]).
Proof.
  intros L Hb Hs R N. unfold RefFind. rewrite L.
  apply Z.eqb_neq in Hb, Hs. rewrite Hb, Hs. simpl orb. cbv iota.
  destruct (region_range pf Address Size regionBase regionSize) as [scanStart scanSize].
  simpl in R. rewrite R.
  destruct (RefFindInRange_inv pf dbg cp _ _ _ _ _ _ _ _ _ _ _ _ R)
    as [[_ [Z0 _]] | [d [_ [Rc _]]]]; [contradiction |].
  apply Z.eqb_neq in N. rewrite N. unfold RefFind_end. simpl. rewrite <- Rc. reflexivity.
Qed.

(** ** Conversions *)

Lemma to_int_small (x : Z) : - 2 ^ 31 <= x < 2 ^ 31 -> to_int x = x.
Proof.
  intros H. unfold to_int. rewrite Z.mod_small by lia. lia.
Qed.

Lemma to_int_le (y : Z) : 0 <= y -> to_int y <= y.
Proof.
  intros H. destruct (Z_lt_dec y (2 ^ 31)) as [L | G].
  - rewrite to_int_small by lia. lia.
  - unfold to_int. pose proof (Z.mod_pos_bound (y + 2 ^ 31) (2 ^ 32) ltac:(lia)). lia.
Qed.

Lemma wrap_wrap_add_l (bits a b : Z) : wrap bits (wrap bits a + b) = wrap bits (a + b).
Proof. unfold wrap. apply Zplus_mod_idemp_l. Qed.

Lemma wrap_wrap_add_r (bits a b : Z) : wrap bits (a + wrap bits b) = wrap bits (a + b).
Proof. unfold wrap. apply Zplus_mod_idemp_r. Qed.

(** ** Counting the matches *)

Section CountFacts.
Context {I U : Type}.
Variable pf : Platform.
Variable cp : Capstone I.
Variable scanSize : Z.
Variable data : list byte.
Variable Callback : CBREF I U.
Variable maxlen : Z.
Hypothesis Hdec : decoder_advances cp maxlen.
Hypothesis Hmax : 1 <= maxlen.
Hypothesis Hfit : scanSize + maxlen <= 2 ^ ptr_bits pf.
Hypothesis Hkeep : keeps_count Callback.

Lemma sweep_step_count (prog : CBPROGRESS) (st : Sweep U) :
  - 2 ^ 31 <= refcount (info st) -> refcount (info st) + 1 < 2 ^ 31 ->
  refcount (info (fst (sweep_step pf cp scanSize data Callback prog st)))
  = refcount (info st) + (if step_hit pf cp scanSize data Callback st then 1 else 0).
Proof.
  intros H0 H1. unfold sweep_step, step_hit.
  destruct (Disassemble cp _ _ _) as [insn |]; [| simpl; lia].
  pose proof (Hkeep (Some insn) (info st)) as K.
  destruct (Callback (Some insn) (info st)) as [hit r]. simpl in *.
  destruct hit; simpl; [rewrite to_int_small by lia |]; lia.
Qed.

Lemma sweep_hits_range (fuel : nat) (st : Sweep U) :
  0 <= off st ->
  0 <= sweep_hits pf cp fuel scanSize data Callback st <= Z.max 0 (scanSize - off st).
Proof.
  revert st. induction fuel as [| fuel IH]; intros st H0; simpl.
  - destruct (off st <? scanSize); lia.
  - destruct (Z.ltb_spec (off st) scanSize) as [L | G]; [| lia].
    pose proof (sweep_step_advance pf cp scanSize data Callback maxlen Hdec Hmax Hfit
                  (fun _ => []) st (conj H0 L)) as A.
    pose proof (step_length_range pf cp scanSize data maxlen Hdec Hmax st) as R.
    specialize (IH (fst (sweep_step pf cp scanSize data Callback (fun _ => []) st))
                   ltac:(lia)).
    destruct (step_hit pf cp scanSize data Callback st); lia.
Qed.

Lemma sweep_count (prog : CBPROGRESS) (fuel : nat) (st st' : Sweep U) (ev : list Event) :
  0 <= off st -> 0 <= refcount (info st) ->
  refcount (info st) + Z.max 0 (scanSize - off st) < 2 ^ 31 ->
  sweep pf cp fuel scanSize data Callback prog st = Some (st', ev) ->
  refcount (info st')
  = refcount (info st) + sweep_hits pf cp fuel scanSize data Callback st.
Proof.
  revert st st' ev. induction fuel as [| fuel IH]; intros st st' ev H0 Hc Hb H.
  - simpl in *. destruct (off st <? scanSize); [discriminate |].
    injection H as <- _. lia.
  - destruct (Z.ltb_spec (off st) scanSize) as [L | G].
    + rewrite sweep_unfold in H by exact L. simpl sweep_hits.
      apply Z.ltb_lt in L. rewrite L. apply Z.ltb_lt in L.
      pose proof (sweep_step_advance pf cp scanSize data Callback maxlen Hdec Hmax Hfit
                    prog st (conj H0 L)) as A.
      pose proof (step_length_range pf cp scanSize data maxlen Hdec Hmax st) as R.
      pose proof (sweep_step_count prog st ltac:(lia) ltac:(lia)) as C.
      rewrite <- (sweep_step_state pf cp scanSize data Callback prog (fun _ => [])).
      set (st1 := fst (sweep_step pf cp scanSize data Callback prog st)) in *.
      destruct (sweep pf cp fuel scanSize data Callback prog st1) as [[st2 ev2] |] eqn:E;
        [| discriminate].
      injection H as <- _.
      rewrite (IH st1 st2 ev2); [lia | lia | | | exact E];
        destruct (step_hit pf cp scanSize data Callback st); lia.
    + rewrite sweep_done in H by exact G. injection H as <- _.
      simpl. apply Z.ltb_ge in G. rewrite G. lia.
Qed.
End CountFacts.

(** ** Counting in a scan *)

Section ScanCount.
Context {I U : Type}.
Variable pf : Platform.
Variable dbg : Debuggee.
Variable cp : Capstone I.
Variable maxlen : Z.
Variable fuel : nat.
Variable Callback : CBREF I U.
Variable UserData : U.
Variable Silent : bool.
Hypothesis Hdec : decoder_advances cp maxlen.
Hypothesis Hmax : 1 <= maxlen.
Hypothesis Hkeep : keeps_count Callback.

Lemma scan_count (scanStart scanSize : Z) (data : list byte) (refInfo : REFINFO U)
    (initCallBack : bool) (prog : CBPROGRESS) :
  MemRead dbg scanStart scanSize = Some data ->
  scanSize + maxlen <= 2 ^ ptr_bits pf -> scanSize <= Z.of_nat fuel ->
  0 <= refcount refInfo -> refcount refInfo + Z.max 0 scanSize < 2 ^ 31 ->
  let hits := scan_hits pf dbg cp fuel scanStart scanSize Callback refInfo initCallBack in
  exists refInfo' ev,
    RefFindInRange pf dbg cp fuel scanStart scanSize Callback UserData Silent refInfo
      initCallBack prog = Some (refcount refInfo + hits, refInfo', ev) /\
    refcount refInfo' = refcount refInfo + hits /\
    0 <= hits <= Z.max 0 scanSize.
Proof.
  intros M Hfit Hfuel H0 Hb hits.
  set (st0 := scan_start scanStart Callback refInfo initCallBack).
  assert (Hst : refcount (info st0) = refcount refInfo).
  { unfold st0, scan_start. simpl. destruct initCallBack; [apply Hkeep | reflexivity]. }
  assert (Hh : hits = sweep_hits pf cp fuel scanSize data Callback st0).
  { unfold hits, scan_hits. rewrite M. reflexivity. }
  destruct (sweep_enough pf cp scanSize data Callback maxlen Hdec Hmax Hfit prog fuel st0)
    as [st' [ev1 [E _]]]; [simpl; lia | simpl; lia |].
  pose proof (sweep_hits_range pf cp scanSize data Callback maxlen Hdec Hmax Hfit fuel st0
                ltac:(simpl; lia)) as R.
  pose proof (sweep_count pf cp scanSize data Callback maxlen Hdec Hmax Hfit Hkeep prog fuel
                st0 st' ev1 ltac:(simpl; lia) ltac:(lia)
                ltac:(rewrite Hst; simpl; rewrite Z.sub_0_r; lia) E) as C.
  simpl off in R. rewrite Z.sub_0_r in R. rewrite <- Hh in R, C. rewrite Hst in C.
  exists (info st'), (EvMemRead scanStart scanSize :: ev1 ++ prog 100).
  split; [| split; [exact C | exact R]].
  unfold RefFindInRange. rewrite M. fold (scan_start scanStart Callback refInfo initCallBack).
  fold st0. rewrite E, C. reflexivity.
Qed.
End ScanCount.

(** ** Counting over the modules *)

Section LoopCount.
Context {I U : Type}.
Variable pf : Platform.
Variable dbg : Debuggee.
Variable cp : Capstone I.
Variable maxlen : Z.
Variable fuel : nat.
Variable Callback : CBREF I U.
Variable UserData : U.
Variable Silent : bool.
Variable count : Z.
Hypothesis Hdec : decoder_advances cp maxlen.
Hypothesis Hmax : 1 <= maxlen.
Hypothesis Hfit : reads_fit pf dbg maxlen fuel.

Lemma modules_loop_runs (rest : list MODINFO) (i : Z) (refInfo : REFINFO U) :
  exists r ev,
    modules_loop pf dbg cp fuel Callback UserData Silent count rest i refInfo = Some (r, ev).
Proof.
  revert i refInfo. induction rest as [| m rest IH]; intros i refInfo; simpl.
  - eauto.
  - destruct (RefFindInRange_runs pf dbg cp maxlen fuel Hdec Hmax Hfit (base m) (size m)
                Callback UserData Silent refInfo (i =? 0)
                (all_modules_progress i count (name m)))
      as [ret [ri [ev1 [R _]]]].
    rewrite R. destruct (ret =? 0); [eauto |].
    destruct (IH (i + 1) ri) as [r [ev2 E]]. rewrite E. eauto.
Qed.

Hypothesis Hkeep : keeps_count Callback.

Lemma total_size_nonneg (l : list MODINFO) : 0 <= total_size l.
Proof. induction l as [| m l IH]; simpl; lia. Qed.

Lemma modules_loop_count (rest : list MODINFO) (i : Z) (refInfo refInfo' : REFINFO U)
    (ev : list Event) :
  0 <= refcount refInfo -> refcount refInfo + total_size rest < 2 ^ 31 ->
  modules_loop pf dbg cp fuel Callback UserData Silent count rest i refInfo
    = Some (Finished refInfo', ev) ->
  let hits := modules_hits pf dbg cp fuel Callback UserData Silent count rest i refInfo in
  refcount refInfo' = refcount refInfo + Zsum hits /\
  Forall2 (fun h m => 0 <= h <= Z.max 0 (size m)) hits rest /\
  0 <= Zsum hits <= total_size rest.
Proof.
  revert i refInfo ev. induction rest as [| m rest IH]; intros i refInfo ev H0 Hb H; simpl in *.
  - injection H as <- _. split; [lia |]. split; [constructor | lia].
  - destruct (RefFindInRange pf dbg cp fuel (base m) (size m) Callback UserData Silent refInfo
                (i =? 0) (all_modules_progress i count (name m)))
      as [[[r ri] ev1] |] eqn:R; [| discriminate].
    destruct (Z.eqb_spec r 0) as [-> | N]; [discriminate |].
    destruct (modules_loop _ _ _ _ _ _ _ _ rest _ _) as [[x ev2] |] eqn:E; [| discriminate].
    injection H as -> _.
    destruct (RefFindInRange_inv pf dbg cp _ _ _ _ _ _ _ _ _ _ _ _ R)
      as [[_ [Z0 _]] | [d [M _]]]; [contradiction |].
    destruct (Hfit _ _ _ M) as [F1 F2].
    pose proof (total_size_nonneg rest) as T.
    destruct (scan_count pf dbg cp maxlen fuel Callback UserData Silent Hdec Hmax Hkeep
                (base m) (size m) d refInfo (i =? 0)
                (all_modules_progress i count (name m)) M F1 F2 H0 ltac:(lia))
      as [ri' [ev' [R' [C B]]]].
    rewrite R in R'. injection R' as _ <- _.
    destruct (IH (i + 1) ri ev2 ltac:(lia) ltac:(lia) E) as [C2 [F B2]].
    split; [lia |]. split; [constructor; assumption | lia].
Qed.
End LoopCount.

Lemma cbAll_keeps_count : keeps_count Demo.cbAll.
Proof. intros [i |] r; reflexivity. Qed.

Lemma cbJmp_keeps_count : keeps_count Demo.cbJmp.
Proof.
  intros [i |] r; simpl; [| reflexivity].
  destruct (Byte.eqb (Demo.opcode i) xeb); reflexivity.
Qed.

(** ** What the decoder is given *)

Section CallFacts.
Context {I U : Type}.
Variable pf : Platform.
Variable cp : Capstone I.
Variable scanSize : Z.
Variable data : list byte.

Lemma sweep_step_addr (Callback : CBREF I U) (prog : CBPROGRESS) (st : Sweep U) :
  addr (fst (sweep_step pf cp scanSize data Callback prog st))
  = wrap (ptr_bits pf) (addr st + step_length pf cp scanSize data st).
Proof.
  unfold sweep_step, step_length.
  destruct (Disassemble cp _ _ _) as [insn |]; [destruct (Callback _ _) |]; reflexivity.
Qed.

Lemma window_range (i : Z) :
  1 <= MAX_DISASM_BUFFER cp -> 0 <= i < scanSize -> scanSize < 2 ^ 31 ->
  31 <= ptr_bits pf ->
  let w := Z.min (MAX_DISASM_BUFFER cp) (to_int (wrap (ptr_bits pf) (scanSize - i))) in
  1 <= w <= MAX_DISASM_BUFFER cp /\ i + w <= scanSize.
Proof.
  intros Hm Hi Hs Hp w. subst w.
  assert (P : 2 ^ 31 <= 2 ^ ptr_bits pf) by (apply Z.pow_le_mono_r; lia).
  unfold wrap. rewrite Z.mod_small by lia. rewrite to_int_small by lia. lia.
Qed.

(** The sweep looks at the offset and the address only: two sweeps of
    the same buffer that agree on them visit the same offsets, whatever
    their callbacks and contexts. *)
Lemma sweep_offsets_callback (Callback1 Callback2 : CBREF I U) (fuel : nat)
    (st1 st2 : Sweep U) :
  off st1 = off st2 -> addr st1 = addr st2 ->
  sweep_offsets pf cp fuel scanSize data Callback1 st1
  = sweep_offsets pf cp fuel scanSize data Callback2 st2.
Proof.
  revert st1 st2. induction fuel as [| fuel IH]; intros st1 st2 Ho Ha; simpl.
  - rewrite Ho. reflexivity.
  - rewrite Ho. destruct (off st2 <? scanSize); [| reflexivity]. f_equal.
    assert (Hl : step_length pf cp scanSize data st1 = step_length pf cp scanSize data st2)
      by (unfold step_length; rewrite Ho, Ha; reflexivity).
    apply IH.
    + rewrite !sweep_step_off, Ho, Hl. reflexivity.
    + rewrite !sweep_step_addr, Ha, Hl. reflexivity.
Qed.

Lemma sweep_callback (Callback1 Callback2 : CBREF I U) (prog : CBPROGRESS) (fuel : nat)
    (st1 st2 st1' : Sweep U) (ev : list Event) :
  off st1 = off st2 -> addr st1 = addr st2 ->
  sweep pf cp fuel scanSize data Callback1 prog st1 = Some (st1', ev) ->
  exists st2', sweep pf cp fuel scanSize data Callback2 prog st2 = Some (st2', ev).
Proof.
  revert st1 st2 st1' ev. induction fuel as [| fuel IH]; intros st1 st2 st1' ev Ho Ha H.
  - simpl in *. rewrite <- Ho. destruct (off st1 <? scanSize); [discriminate |].
    injection H as _ <-. eauto.
  - destruct (Z.ltb_spec (off st1) scanSize) as [L | G].
    + rewrite sweep_unfold in H by exact L. rewrite sweep_unfold by lia.
      assert (Hl : step_length pf cp scanSize data st1 = step_length pf cp scanSize data st2)
        by (unfold step_length; rewrite Ho, Ha; reflexivity).
      destruct (sweep pf cp fuel scanSize data Callback1 prog _) as [[s e] |] eqn:E;
        [| discriminate].
      injection H as _ <-.
      assert (Ho1 : off (fst (sweep_step pf cp scanSize data Callback1 prog st1))
                    = off (fst (sweep_step pf cp scanSize data Callback2 prog st2)))
        by (rewrite !sweep_step_off, Ho, Hl; reflexivity).
      assert (Ha1 : addr (fst (sweep_step pf cp scanSize data Callback1 prog st1))
                    = addr (fst (sweep_step pf cp scanSize data Callback2 prog st2)))
        by (rewrite !sweep_step_addr, Ha, Hl; reflexivity).
      destruct (IH _ _ _ _ Ho1 Ha1 E) as [s2 E2].
      rewrite E2, Ho. eauto.
    + rewrite sweep_done in H by exact G. injection H as _ <-.
      rewrite sweep_done by lia. eauto.
Qed.

Variable Callback : CBREF I U.

Section Advancing.
Variable maxlen : Z.
Hypothesis Hdec : decoder_advances cp maxlen.
Hypothesis Hmax : 1 <= maxlen.
Hypothesis Hfit : scanSize + maxlen <= 2 ^ ptr_bits pf.

Lemma sweep_calls_bounds (scanStart : Z) (fuel : nat) (st : Sweep U) :
  1 <= MAX_DISASM_BUFFER cp -> scanSize < 2 ^ 31 -> 31 <= ptr_bits pf ->
  0 <= off st -> addr st = wrap (ptr_bits pf) (scanStart + off st) ->
  Forall (fun c => let '(a, i, w) := c in
                   a = wrap (ptr_bits pf) (scanStart + i) /\
                   off st <= i < scanSize /\
                   1 <= w <= MAX_DISASM_BUFFER cp /\ i + w <= scanSize)
         (sweep_calls pf cp fuel scanSize data Callback st).
Proof.
  intros Hm Hs Hp. revert st. induction fuel as [| fuel IH]; intros st H0 Ha; simpl.
  - destruct (off st <? scanSize); constructor.
  - destruct (Z.ltb_spec (off st) scanSize) as [L | G]; [| constructor].
    pose proof (sweep_step_advance pf cp scanSize data Callback maxlen Hdec Hmax Hfit
                  (fun _ => []) st (conj H0 L)) as A.
    pose proof (step_length_range pf cp scanSize data maxlen Hdec Hmax st) as R.
    constructor.
    + split; [exact Ha |]. split; [lia |]. apply window_range; assumption || lia.
    + set (st1 := fst (sweep_step pf cp scanSize data Callback (fun _ => []) st)) in *.
      assert (Ha1 : addr st1 = wrap (ptr_bits pf) (scanStart + off st1)).
      { unfold st1 at 1. rewrite sweep_step_addr, Ha, wrap_wrap_add_l, A.
        f_equal. lia. }
      specialize (IH st1 ltac:(lia) Ha1).
      eapply Forall_impl; [| exact IH]. intros [[a i] w]. simpl. intros H. 
      repeat split; try apply H. lia.
Qed.
End Advancing.

(** *** Under a decoder that keeps to its window *)

Hypothesis Hbound : decoder_bounded cp.
Hypothesis Hm : 1 <= MAX_DISASM_BUFFER cp.
Hypothesis Hs : scanSize < 2 ^ 31.
Hypothesis Hp : 31 <= ptr_bits pf.

Lemma step_length_fits (st : Sweep U) :
  0 <= off st < scanSize ->
  1 <= step_length pf cp scanSize data st <= scanSize - off st.
Proof.
  intros H. unfold step_length.
  pose proof (window_range (off st) Hm H Hs Hp) as W. simpl in W.
  destruct (Disassemble cp _ _ _) as [insn |] eqn:E; [| lia].
  pose proof (Hbound _ _ _ _ E). lia.
Qed.

Lemma sweep_exact (scanStart : Z) (prog : CBPROGRESS) (fuel : nat) (st : Sweep U) :
  0 <= off st <= scanSize -> addr st = wrap (ptr_bits pf) (scanStart + off st) ->
  (Z.to_nat (scanSize - off st) <= fuel)%nat ->
  exists st' ev,
    sweep pf cp fuel scanSize data Callback prog st = Some (st', ev) /\
    off st' = scanSize /\ addr st' = wrap (ptr_bits pf) (scanStart + scanSize).
Proof.
  assert (P : 2 ^ 31 <= 2 ^ ptr_bits pf) by (apply Z.pow_le_mono_r; lia).
  revert st. induction fuel as [| fuel IH]; intros st H0 Ha Hf.
  - exists st, []. split; [apply sweep_done; lia |].
    assert (E : off st = scanSize) by lia. rewrite Ha, E. split; reflexivity.
  - destruct (Z.ltb_spec (off st) scanSize) as [L | G].
    + rewrite sweep_unfold by exact L.
      pose proof (step_length_fits st ltac:(lia)) as R.
      set (st1 := fst (sweep_step pf cp scanSize data Callback prog st)).
      assert (A : off st1 = off st + step_length pf cp scanSize data st).
      { unfold st1. rewrite sweep_step_off. unfold wrap. apply Z.mod_small. lia. }
      assert (Ha1 : addr st1 = wrap (ptr_bits pf) (scanStart + off st1)).
      { unfold st1 at 1. rewrite sweep_step_addr, Ha, wrap_wrap_add_l, A.
        f_equal. lia. }
      destruct (IH st1 ltac:(lia) Ha1 ltac:(lia)) as [st' [ev [E F]]].
      rewrite E. eauto.
    + exists st, []. split; [apply sweep_done; lia |].
      assert (E : off st = scanSize) by lia. rewrite Ha, E. split; reflexivity.
Qed.
End CallFacts.

(** ** Reads and diagnostics *)

Lemma reads_all_modules (i count : Z) (nm : string) (l : list Z) :
  reads (flat_map (all_modules_progress i count nm) l) = [].
Proof. induction l as [| p l IH]; simpl; [reflexivity | exact IH]. Qed.

Lemma diagnostics_app (a b : list Event) :
  diagnostics (a ++ b) = diagnostics a ++ diagnostics b.
Proof. unfold diagnostics. apply flat_map_app. Qed.

Lemma diagnostics_region (l : list Z) : diagnostics (flat_map region_progress l) = [].
Proof. induction l as [| p l IH]; simpl; [reflexivity | exact IH]. Qed.

Lemma diagnostics_module (l : list Z) : diagnostics (flat_map module_progress l) = [].
Proof. induction l as [| p l IH]; simpl; [reflexivity | exact IH]. Qed.

Lemma diagnostics_all_modules (i count : Z) (nm : string) (l : list Z) :
  diagnostics (flat_map (all_modules_progress i count nm) l) = [].
Proof. induction l as [| p l IH]; simpl; [reflexivity | exact IH]. Qed.

Lemma quiet_region : quiet region_progress.
Proof. intros l. split; [apply reads_region | apply diagnostics_region]. Qed.

Lemma quiet_module : quiet module_progress.
Proof. intros l. split; [apply reads_module | apply diagnostics_module]. Qed.

Lemma quiet_all_modules (i count : Z) (nm : string) :
  quiet (all_modules_progress i count nm).
Proof. intros l. split; [apply reads_all_modules | apply diagnostics_all_modules]. Qed.

Section TraceFacts.
Context {I U : Type}.
Variable pf : Platform.
Variable dbg : Debuggee.
Variable cp : Capstone I.
Variable fuel : nat.
Variable Callback : CBREF I U.
Variable UserData : U.
Variable Silent : bool.

Lemma scan_trace (scanStart scanSize : Z) (refInfo refInfo' : REFINFO U)
    (initCallBack : bool) (prog : CBPROGRESS) (ret : Z) (ev : list Event) :
  quiet prog ->
  RefFindInRange pf dbg cp fuel scanStart scanSize Callback UserData Silent refInfo
    initCallBack prog = Some (ret, refInfo', ev) ->
  reads ev = [(scanStart, scanSize)] /\
  (Silent = true -> diagnostics ev = []) /\
  (ret <> 0 -> diagnostics ev = []) /\
  (List.length (diagnostics ev) <= 1)%nat.
Proof.
  intros Q H.
  destruct (RefFindInRange_inv pf dbg cp _ _ _ _ _ _ _ _ _ _ _ _ H)
    as [[_ [Z0 [_ ->]]] | [d [_ [_ ->]]]].
  - simpl. rewrite reads_read_error. split; [reflexivity |].
    split; [intros ->; reflexivity |]. split; [intros N; contradiction |].
    destruct Silent; simpl; lia.
  - simpl. destruct (Q (percents_of scanSize
                          (sweep_offsets pf cp fuel scanSize d Callback
                             {| off := 0; addr := scanStart;
                                info := if initCallBack then snd (Callback None refInfo)
                                        else refInfo |}) ++ [100])) as [-> ->].
    repeat split; simpl; lia || reflexivity.
Qed.
End TraceFacts.

Section LoopTrace.
Context {I U : Type}.
Variable pf : Platform.
Variable dbg : Debuggee.
Variable cp : Capstone I.
Variable fuel : nat.
Variable Callback : CBREF I U.
Variable UserData : U.
Variable Silent : bool.
Variable count : Z.

Lemma modules_loop_trace (rest : list MODINFO) (i : Z) (refInfo : REFINFO U)
    (r : LoopExit) (ev : list Event) :
  modules_loop pf dbg cp fuel Callback UserData Silent count rest i refInfo = Some (r, ev) ->
  (exists k, reads ev = map module_range (firstn k rest) /\
             (rest <> [] -> (1 <= k)%nat)) /\
  (forall ri, r = Finished ri ->
     reads ev = map module_range rest /\ diagnostics ev = []) /\
  (Silent = true -> diagnostics ev = []) /\
  (List.length (diagnostics ev) <= 1)%nat.
Proof.
  revert i refInfo r ev. induction rest as [| m rest IH]; intros i refInfo r ev H; simpl in H.
  - injection H as <- <-. split; [exists 0%nat; split; [reflexivity | congruence] |].
    repeat split; simpl; lia || reflexivity.
  - destruct (RefFindInRange pf dbg cp fuel (base m) (size m) Callback UserData Silent refInfo
                (i =? 0) (all_modules_progress i count (name m)))
      as [[[r1 ri1] ev1] |] eqn:R; [| discriminate].
    destruct (scan_trace pf dbg cp fuel Callback UserData Silent _ _ _ _ _ _ _ _
                (quiet_all_modules i count (name m)) R) as [Rd [Ds [Dn Dl]]].
    destruct (Z.eqb_spec r1 0) as [-> | N].
    + injection H as <- <-. split; [exists 1%nat; split; [exact Rd | lia] |].
      split; [intros ri C; discriminate |]. split; assumption.
    + destruct (modules_loop _ _ _ _ _ _ _ _ rest _ _) as [[x ev2] |] eqn:E; [| discriminate].
      injection H as <- <-.
      destruct (IH _ _ _ _ E) as [[k [Rk _]] [Fin [Ds2 Dl2]]].
      rewrite !reads_app, !diagnostics_app, Rd, (Dn N). simpl.
      split; [exists (S k); split; [simpl; rewrite Rk; reflexivity | lia] |].
      split; [| split; assumption].
      intros ri C. destruct (Fin ri C) as [-> ->]. split; reflexivity.
Qed.
End LoopTrace.

(** ** The search returns *)

Section Runs.
Context {I U : Type}.
Variable pf : Platform.
Variable dbg : Debuggee.
Variable cp : Capstone I.
Variable maxlen : Z.
Variable fuel : nat.
Hypothesis Hdec : decoder_advances cp maxlen.
Hypothesis Hmax : 1 <= maxlen.
Hypothesis Hfit : reads_fit pf dbg maxlen fuel.

Lemma RefFind_runs (Address Size : Z) (Callback : CBREF I U) (UserData : U)
    (Silent : bool) (Name : string) (type : REFFINDTYPE) :
  exists ret ev,
    RefFind pf dbg cp fuel Address Size Callback UserData Silent Name type = Some (ret, ev).
Proof.
  unfold RefFind. destruct type.
  - destruct (MemFindBaseAddr dbg Address) as [regionBase regionSize].
    destruct ((regionBase =? 0) || (regionSize =? 0)); [eauto |].
    destruct (region_range pf Address Size regionBase regionSize) as [scanStart scanSize].
    destruct (RefFindInRange_runs pf dbg cp maxlen fuel Hdec Hmax Hfit scanStart scanSize
                Callback UserData Silent
                (init_refInfo UserData (region_fullName pf dbg Name scanStart)) true
                region_progress) as [r [ri [ev [R _]]]].
    rewrite R. destruct (r =? 0); unfold RefFind_end; eauto.
  - destruct (ModInfoFromAddr dbg Address) as [m |]; [| eauto].
    destruct (RefFindInRange_runs pf dbg cp maxlen fuel Hdec Hmax Hfit (base m) (size m)
                Callback UserData Silent
                (init_refInfo UserData (module_fullName pf dbg Name (base m))) true
                module_progress) as [r [ri [ev [R _]]]].
    rewrite R. destruct (r =? 0); unfold RefFind_end; eauto.
  - destruct (ModGetList dbg) as [| m0 l0]; [eauto |].
    destruct (modules_loop_runs pf dbg cp maxlen fuel Callback UserData Silent
                (Z.of_nat (List.length (m0 :: l0))) Hdec Hmax Hfit (m0 :: l0) 0
                (init_refInfo UserData (all_fullName Name))) as [r [ev E]].
    rewrite E. destruct r; unfold RefFind_end; eauto.
Qed.
End Runs.

(** ** The small decoder keeps to its window *)

Lemma capstone_bounded : decoder_bounded Demo.capstone.
Proof.
  intros address data sz insn H. simpl in H. unfold Demo.decode in H.
  destruct data as [| b rest]; [discriminate |].
  destruct (Byte.eqb b x90 && (1 <=? sz)) eqn:A.
  - injection H as <-. simpl. apply andb_true_iff in A. lia.
  - destruct (Byte.eqb b xeb && (2 <=? sz) && negb (Nat.eqb (List.length (firstn 1 rest)) 0))
      eqn:B; [| discriminate].
    injection H as <-. simpl. apply andb_true_iff in B. destruct B as [B _].
    apply andb_true_iff in B. lia.
Qed.

(** ** Where the modules join *)

Section Joins.
Local Open Scope Q_scope.

Lemma pct_eq (v w d : Q) : 0 < d -> 0 <= v -> v == w -> pct v d = pct w d.
Proof.
  intros Hd Hv E. apply Z.le_antisymm; apply pct_mono; lra.
Qed.

Lemma module_share_0 (i : Z) : (0 <= i < 2 ^ 24)%Z -> module_share i 0 == inject_Z i.
Proof.
  intros Hi. unfold module_share, f32_add, f32_div, f32_of_Z.
  assert (Qi : 0 <= inject_Z i) by (rewrite <- (Zle_Qle 0); lia).
  assert (E : fl (inject_Z i) == inject_Z i) by (apply fl_Z; exact Hi).
  assert (Z0 : fl (inject_Z 0) = 0) by (apply fl_zero_eq; reflexivity).
  rewrite Z0.
  assert (Z1 : fl (0 / 100) = 0) by (apply fl_zero_eq; reflexivity).
  rewrite Z1.
  transitivity (fl (inject_Z i)); [apply fl_eq; lra | exact E].
Qed.

Lemma module_share_100 (i : Z) :
  (0 <= i)%Z -> (i + 1 < 2 ^ 24)%Z -> module_share i 100 == inject_Z (i + 1).
Proof.
  intros Hi Hn. unfold module_share, f32_add, f32_div, f32_of_Z.
  assert (Qi : 0 <= inject_Z i) by (rewrite <- (Zle_Qle 0); lia).
  assert (E : fl (inject_Z i) == inject_Z i) by (apply fl_Z; lia).
  assert (F : fl (inject_Z (i + 1)) == inject_Z (i + 1)) by (apply fl_Z; lia).
  assert (G : inject_Z (i + 1) == inject_Z i + 1)
    by (rewrite inject_Z_plus; reflexivity).
  assert (H100 : fl (inject_Z 100) == 100) by exact fl_100.
  assert (D : fl (inject_Z 100) / 100 == 1).
  { apply (Qmult_inj_r _ _ 100); [lra |].
    transitivity (fl (inject_Z 100)); [field | lra]. }
  assert (O : fl (fl (inject_Z 100) / 100) == 1).
  { transitivity (fl 1); [apply fl_eq; lra | exact fl_1]. }
  transitivity (fl (inject_Z (i + 1))); [| exact F].
  apply fl_eq; lra.
Qed.
End Joins.

(** ** Reports per page *)

Lemma aligned_count (l : list Z) (lo n : Z) :
  StronglySorted Z.lt l -> Forall (fun j => lo <= j < n /\ j mod 4096 = 0) l ->
  4096 * Z.of_nat (List.length l) <= Z.max 0 (n - lo) + 4095.
Proof.
  intros Hs. revert lo. induction Hs as [| x l Hs IH Hx]; intros lo F.
  - simpl. lia.
  - inversion F as [| y l' [Hr Hm] F']. subst.
    assert (F2 : Forall (fun j => x + 4096 <= j < n /\ j mod 4096 = 0) l).
    { rewrite Forall_forall in *. intros j Hj.
      destruct (F' j Hj) as [Hjr Hjm]. pose proof (Hx j Hj) as L.
      pose proof (Z.div_mod j 4096 ltac:(lia)). pose proof (Z.div_mod x 4096 ltac:(lia)).
      split; [lia | exact Hjm]. }
    specialize (IH (x + 4096) F2).
    change (List.length (x :: l)) with (S (List.length l)). lia.
Qed.

(** * The claims *)

Import Demo.

(** C1.  A region that holds one [nop], searched with a callback that
    matches every instruction.  The scan of the range decodes one
    instruction and its count is 1, and the module scope returns 1 for the
    same bytes; the region scope returns 2, for line 75 adds the value
    returned by the scan to the count that the scan has already raised
    ([RefFind_region_doubles]). *)
Theorem RefFind_region_counts_twice :
  RefFindInRange x64 one_nop capstone 1 0x401000 1 cbAll [] false (fresh "refs") true
    region_progress
  = Some (1, {| refcount := 1; userinfo := [0x401000]; refname := "refs" |},
          [EvMemRead 0x401000 1;
           GuiReferenceSetCurrentTaskProgress 0 "Region Search"; GuiReferenceSetProgress 0;
           GuiReferenceSetCurrentTaskProgress 100 "Region Search"; GuiReferenceSetProgress 100]) /\
  RefFind x64 one_nop capstone 1 0x401000 0 cbAll [] false "refs" CURRENT_MODULE
  = Some (1, [EvMemRead 0x401000 1;
              GuiReferenceSetCurrentTaskProgress 0 "Module Search"; GuiReferenceSetProgress 0;
              GuiReferenceSetCurrentTaskProgress 100 "Module Search"; GuiReferenceSetProgress 100;
              GuiReferenceReloadData; GuiReferenceSetProgress 100; GuiReferenceReloadData]) /\
  RefFind x64 one_nop capstone 1 0x401000 0 cbAll [] false "refs" CURRENT_REGION
  = Some (2, [EvMemRead 0x401000 1;
              GuiReferenceSetCurrentTaskProgress 0 "Region Search"; GuiReferenceSetProgress 0;
              GuiReferenceSetCurrentTaskProgress 100 "Region Search"; GuiReferenceSetProgress 100;
              GuiReferenceReloadData; GuiReferenceSetProgress 100; GuiReferenceReloadData]).
Proof. repeat split; vm_compute; reflexivity. Qed.

(** C2.  Two modules, [a.exe] with two [nop]s and [b.dll] with a jump and
    a [nop], searched for jumps.  Every read succeeds.  On its own [a.exe]
    has 0 matches and [b.dll] has 1.  With [a.exe] first the search of all
    modules returns 0 after [a.exe], and [b.dll] is never read; with [b.dll]
    first it returns 1. *)
Theorem RefFind_all_modules_stops_at_matchless_module :
  RefFind x64 nops_then_jump capstone 3 0x401000 0 cbJmp [] true "refs" CURRENT_MODULE
  = Some (0, [EvMemRead 0x401000 2;
              GuiReferenceSetCurrentTaskProgress 0 "Module Search"; GuiReferenceSetProgress 0;
              GuiReferenceSetCurrentTaskProgress 100 "Module Search"; GuiReferenceSetProgress 100]) /\
  RefFind x64 nops_then_jump capstone 3 0x501000 0 cbJmp [] true "refs" CURRENT_MODULE
  = Some (1, [EvMemRead 0x501000 3;
              GuiReferenceSetCurrentTaskProgress 0 "Module Search"; GuiReferenceSetProgress 0;
              GuiReferenceSetCurrentTaskProgress 100 "Module Search"; GuiReferenceSetProgress 100;
              GuiReferenceReloadData; GuiReferenceSetProgress 100; GuiReferenceReloadData]) /\
  RefFind x64 nops_then_jump capstone 3 0 0 cbJmp [] true "refs" ALL_MODULES
  = Some (0, [EvMemRead 0x401000 2;
              GuiReferenceSetCurrentTaskProgress 0 "a.exe"; GuiReferenceSetProgress 0;
              GuiReferenceSetCurrentTaskProgress 100 "a.exe"; GuiReferenceSetProgress 50]) /\
  RefFind x64 jump_then_nops capstone 3 0 0 cbJmp [] true "refs" ALL_MODULES
  = Some (1, [EvMemRead 0x501000 3;
              GuiReferenceSetCurrentTaskProgress 0 "b.dll"; GuiReferenceSetProgress 0;
              GuiReferenceSetCurrentTaskProgress 100 "b.dll"; GuiReferenceSetProgress 50;
              GuiReferenceReloadData;
              EvMemRead 0x401000 2;
              GuiReferenceSetCurrentTaskProgress 0 "a.exe"; GuiReferenceSetProgress 50;
              GuiReferenceSetCurrentTaskProgress 100 "a.exe"; GuiReferenceSetProgress 100;
              GuiReferenceReloadData; GuiReferenceSetProgress 100; GuiReferenceReloadData]).
Proof. repeat split; vm_compute; reflexivity. Qed.

(** C3.  A region of 16 bytes at [0x401000], searched from [0x401008] with
    a size of [0x20].  Eight bytes of the region are left, and
    [min(Size, regionSize - (Address - regionBase))] is 8; the code takes
    [Size - (Address - regionBase)], which is [0x18]
    ([region_range_sized]), asks for the bytes up to [0x401020], sixteen of
    them beyond the region, and fails with the read. *)
Theorem RefFind_region_size_not_clamped :
  MemFindBaseAddr sixteen_nops 0x401008 = (0x401000, 16) /\
  Z.min 0x20 (16 - (0x401008 - 0x401000)) = 8 /\
  region_range x64 0x401008 0x20 0x401000 16 = (0x401008, 0x18) /\
  RefFind x64 sixteen_nops capstone 32 0x401008 0x20 cbAll [] false "refs" CURRENT_REGION
  = Some (0, EvMemRead 0x401008 0x18 :: read_error false ++ [GuiReferenceReloadData]).
Proof. repeat split; vm_compute; reflexivity. Qed.



(** C5.  A range of 4100 bytes, read well, with a two-byte jump at
    offset 4095 and nothing else that decodes.  The sweep visits offset
    4095 and then offset 4097: the offset passes 4096 inside the jump, the
    test [(i % 0x1000) == 0] of line 206 is made at 4095 and at 4097 and
    fails at both, and the report that the comment of line 205 announces
    for every 4096 bytes, 99 percent here, is never made.  The scan
    reports 0 and 100 alone, under the task and as the overall value. *)
Theorem straddled_boundary_not_reported :
  MemRead straddle 0x401000 4100
  = Some (repeat x06 (page - 1) ++ [xeb; x00] ++ repeat x06 3) /\
  exact_percent 4096 4100 = 99 /\
  (let offsets :=
     sweep_offsets x64 capstone (Z.to_nat 4100) 4100
       (repeat x06 (page - 1) ++ [xeb; x00] ++ repeat x06 3) cbAll
       {| off := 0; addr := 0x401000; info := fresh "refs" |} in
   existsb (Z.eqb 4095) offsets = true /\
   existsb (Z.eqb 4096) offsets = false /\
   existsb (Z.eqb 4097) offsets = true) /\
  exists ret refInfo' ev,
    RefFindInRange x64 straddle capstone (Z.to_nat 4100) 0x401000 4100 cbAll [] false
      (fresh "refs") true region_progress = Some (ret, refInfo', ev) /\
    ret = 1 /\
    task_percents ev = [0; 100] /\
    overall ev = [0; 100] /\
    ~ reported_every_4096 4100 ev.
Proof.
  split; [vm_compute; reflexivity |]. split; [reflexivity |].
  split; [repeat split; vm_compute; reflexivity |].
  eexists _, _, _. split; [vm_compute; reflexivity |]. split; [reflexivity |].
  split; [reflexivity |]. split; [reflexivity |].
  intros H. destruct (H 1) as [l Hin]; [lia |].
  vm_compute in Hin.
  repeat (destruct Hin as [Hin | Hin]; [discriminate |]). exact Hin.
Qed.

(** Nor is the percentage reported the exact one: at offset 217088 of
    409600 bytes, 53 percent of the range, single precision gives 52. *)
Lemma sweep_percent_not_exact :
  sweep_percent 217088 409600 = 52 /\ exact_percent 217088 409600 = 53.
Proof. split; vm_compute; reflexivity. Qed.

(** The reports of a scan as the code makes them.  A scan whose read
    succeeds returns, and what it emits after the read is, in order: for
    every iteration of the sweep whose offset is a multiple of 4096, and
    for no other, one report of
    [sweep_percent], the floor of [(float)i / (float)scanSize * 100.0f]
    in single precision, which lies between 0 and 100 and within one of the
    exact percentage; then one report of 100, whatever the range.  An
    empty range gives the report of 100 alone, a range of at most 4096
    bytes the report of 0 at offset 0 and then that of 100. *)
Theorem RefFindInRange_reports {I U : Type} (pf : Platform) (dbg : Debuggee)
    (cp : Capstone I) (maxlen : Z) (fuel : nat) (scanStart scanSize : Z)
    (data : list byte) (Callback : CBREF I U) (UserData : U) (Silent : bool)
    (refInfo : REFINFO U) (initCallBack : bool) (prog : CBPROGRESS) :
  decoder_advances cp maxlen -> 1 <= maxlen ->
  scanSize + maxlen <= 2 ^ ptr_bits pf -> scanSize <= Z.of_nat fuel ->
  MemRead dbg scanStart scanSize = Some data ->
  let st0 := {| off := 0; addr := scanStart;
                info := if initCallBack then snd (Callback None refInfo) else refInfo |} in
  let offsets := sweep_offsets pf cp fuel scanSize data Callback st0 in
  exists ret refInfo' ev,
    RefFindInRange pf dbg cp fuel scanStart scanSize Callback UserData Silent refInfo
      initCallBack prog = Some (ret, refInfo', ev) /\
    ev = EvMemRead scanStart scanSize ::
         flat_map (fun i => if i mod 4096 =? 0 then prog (sweep_percent i scanSize) else [])
                  offsets ++ prog 100 /\
    Forall (fun i => 0 <= i < scanSize /\
                     0 <= sweep_percent i scanSize <= 100 /\
                     exact_percent i scanSize - 1 <= sweep_percent i scanSize
                     <= exact_percent i scanSize + 1) offsets /\
    (scanSize <= 0 -> ev = EvMemRead scanStart scanSize :: prog 100) /\
    (0 < scanSize <= 4096 -> ev = EvMemRead scanStart scanSize :: prog 0 ++ prog 100).
Proof.
  intros Hdec Hmax Hfit Hfuel M st0 offsets.
  destruct (sweep_enough pf cp scanSize data Callback maxlen Hdec Hmax Hfit prog fuel st0)
    as [st' [ev1 [E _]]]; [simpl; lia | simpl; lia |].
  pose proof (sweep_events pf cp _ _ _ _ _ _ _ _ E) as Ev. fold offsets in Ev.
  exists (refcount (info st')), (info st'), (EvMemRead scanStart scanSize :: ev1 ++ prog 100).
  split; [unfold RefFindInRange; rewrite M; fold st0; rewrite E; reflexivity |].
  split; [rewrite Ev; reflexivity |]. split; [| split].
  - destruct (sweep_offsets_sorted pf cp scanSize data Callback maxlen Hdec Hmax Hfit
                fuel st0) as [_ F]; [simpl; lia |].
    fold offsets in F. eapply Forall_impl; [| exact F]. simpl. intros i Hi.
    split; [lia |]. split.
    + apply sweep_percent_range; lia.
    + apply sweep_percent_error; lia.
  - intros Hle. assert (O : offsets = []).
    { unfold offsets. destruct fuel; simpl; destruct (Z.ltb_spec 0 scanSize); (lia || reflexivity). }
    rewrite Ev, O. reflexivity.
  - intros [Hpos Hsmall]. rewrite Ev. unfold offsets.
    destruct fuel as [| fuel']; [simpl in Hfuel; lia |].
    simpl sweep_offsets. simpl off. destruct (Z.ltb_spec 0 scanSize) as [_ | C]; [| lia].
    set (st1 := fst (sweep_step pf cp scanSize data Callback (fun _ => []) st0)).
    assert (A : off st1 = 0 + step_length pf cp scanSize data st0).
    { apply (sweep_step_advance pf cp scanSize data Callback maxlen Hdec Hmax Hfit).
      simpl. lia. }
    pose proof (step_length_range pf cp scanSize data maxlen Hdec Hmax st0) as R.
    destruct (sweep_offsets_sorted pf cp scanSize data Callback maxlen Hdec Hmax Hfit
                fuel' st1) as [_ F]; [lia |].
    simpl flat_map. unfold report at 1. change (0 mod 4096 =? 0) with true. cbv iota.
    assert (P0 : sweep_percent 0 scanSize = 0).
    { rewrite sweep_percent_pct. apply pct_zero, f32_of_Z_pos. exact Hpos. }
    rewrite P0.
    assert (N : flat_map (report scanSize prog)
                  (sweep_offsets pf cp fuel' scanSize data Callback st1) = []).
    { induction F as [| j l Hj F IH]; [reflexivity |]. simpl. rewrite IH.
      unfold report. destruct (Z.eqb_spec (j mod 4096) 0) as [Z0 | _]; [| reflexivity].
      rewrite Z.mod_small in Z0 by lia. lia. }
    rewrite N, app_nil_r. reflexivity.
Qed.

(** The reports of a scan of sixteen [nop]s. *)
Lemma RefFindInRange_reports_witness :
  decoder_advances capstone 2 /\ 1 <= 2 /\ 16 + 2 <= 2 ^ 64 /\ 16 <= Z.of_nat 16 /\
  MemRead sixteen_nops 0x401000 16 = Some (repeat x90 16) /\
  exists ret refInfo' ev,
    RefFindInRange x64 sixteen_nops capstone 16 0x401000 16 cbAll [] false
      (fresh "refs") true region_progress = Some (ret, refInfo', ev) /\
    ev = EvMemRead 0x401000 16 :: region_progress 0 ++ region_progress 100.
Proof.
  split; [exact capstone_advances |]. split; [lia |]. split; [lia |]. split; [lia |].
  split; [reflexivity |].
  destruct (RefFindInRange_reports x64 sixteen_nops capstone 2 16 0x401000 16 (repeat x90 16)
              cbAll [] false (fresh "refs") true region_progress
              capstone_advances ltac:(lia) ltac:(simpl; lia) ltac:(lia) eq_refl)
    as [ret [refInfo' [ev [R [_ [_ [_ Hsmall]]]]]]].
  exists ret, refInfo', ev. split; [exact R | apply Hsmall; lia].
Defined.




(** C7.  Two modules, [a.exe] with two [nop]s and [b.dll] with a jump
    and a [nop], searched for jumps; every read succeeds.  With [a.exe]
    first the scan of [a.exe] returns the count, still 0, line 173 takes
    it for a failure and [RefFind] returns: the overall percentages shown
    are 0 and 50, and the last one is 50, not 100.  With [b.dll] first the
    same search ends at 100, and so does the search of three modules with
    [a.exe] in the middle, where the count is 1 when [a.exe] has been
    scanned: a module without a match ends the run only while the count is
    0.  The percentages never decrease in any of the three runs. *)
Theorem RefFind_all_modules_progress_ends_short :
  MemRead nops_then_jump 0x401000 2 = Some [x90; x90] /\
  MemRead nops_then_jump 0x501000 3 = Some [xeb; x00; x90] /\
  (exists ev,
     RefFind x64 nops_then_jump capstone 3 0 0 cbJmp [] true "refs" ALL_MODULES
       = Some (0, ev) /\
     reads ev = [(0x401000, 2)] /\ diagnostics ev = [] /\
     overall ev = [0; 50] /\ last (overall ev) 0 = 50) /\
  (exists ev,
     RefFind x64 jump_then_nops capstone 3 0 0 cbJmp [] true "refs" ALL_MODULES
       = Some (1, ev) /\
     overall ev = [0; 50; 50; 100; 100] /\ last (overall ev) 0 = 100) /\
  (exists ev,
     RefFind x64 jump_nops_jump capstone 3 0 0 cbJmp [] true "refs" ALL_MODULES
       = Some (2, ev) /\
     reads ev = [(0x501000, 3); (0x401000, 2); (0x601000, 2)] /\
     StronglySorted Z.le (overall ev) /\ last (overall ev) 0 = 100).
Proof.
  split; [reflexivity |]. split; [reflexivity |]. split; [| split].
  - eexists. split; [vm_compute; reflexivity |]. repeat split; reflexivity.
  - eexists. split; [vm_compute; reflexivity |]. repeat split; reflexivity.
  - eexists. split; [vm_compute; reflexivity |]. split; [reflexivity |].
    split; [| reflexivity].
    vm_compute. repeat constructor; discriminate.
Qed.

(** The part of it that holds on every run.  With a decoder that
    advances, reads that fit and fewer than [2 ^ 24] modules, [RefFind]
    returns, and the overall percentages it showed never decrease.  When it returns a count other than 0, which it
    does only from its last line, the run is complete and the last
    percentage shown is 100.  So it is in the region and the module scope
    whenever the range was read, whatever the count. *)
Theorem RefFind_progress_monotone {I U : Type} (pf : Platform) (dbg : Debuggee)
    (cp : Capstone I) (maxlen : Z) (fuel : nat) (Address Size : Z)
    (Callback : CBREF I U) (UserData : U) (Silent : bool) (Name : string)
    (type : REFFINDTYPE) :
  decoder_advances cp maxlen -> 1 <= maxlen -> reads_fit pf dbg maxlen fuel ->
  Z.of_nat (List.length (ModGetList dbg)) < 2 ^ 24 ->
  exists ret ev,
    RefFind pf dbg cp fuel Address Size Callback UserData Silent Name type = Some (ret, ev) /\
    StronglySorted Z.le (overall ev) /\
    (ret <> 0 -> last (overall ev) 0 = 100) /\
    (type <> ALL_MODULES ->
     forall a n, reads ev = [(a, n)] -> MemRead dbg a n <> None ->
     last (overall ev) 0 = 100).
Proof.
  intros Hdec Hmax Hfit Hcount.
  assert (Scan : forall scanStart scanSize refInfo prog,
            (forall l, overall (flat_map prog l) = l) ->
            (forall l, reads (flat_map prog l) = []) ->
            exists r ri ev1,
              RefFindInRange pf dbg cp fuel scanStart scanSize Callback UserData Silent
                refInfo true prog = Some (r, ri, ev1) /\
              StronglySorted Z.le (overall ev1) /\
              Forall (fun q => q <= 100) (overall ev1) /\
              reads ev1 = [(scanStart, scanSize)] /\
              (MemRead dbg scanStart scanSize <> None -> last (overall ev1) 0 = 100)).
  { intros scanStart scanSize refInfo prog Hov Hrd.
    destruct (RefFindInRange_runs pf dbg cp maxlen fuel Hdec Hmax Hfit scanStart scanSize
                Callback UserData Silent refInfo true prog)
      as [r [ri [ev1 [R Sh]]]].
    exists r, ri, ev1. split; [exact R |].
    destruct Sh as [[M [_ ->]] | [ps [M [_ [-> [Hs F]]]]]]; simpl.
    - rewrite overall_read_error, reads_read_error.
      repeat split; try constructor. intros C. contradiction.
    - rewrite Hov, Hrd. split; [exact Hs |]. split.
      + eapply Forall_impl; [| exact F]. simpl. intros q Hq. lia.
      + split; [reflexivity |]. intros _. apply last_snoc. }
  assert (End : forall l, StronglySorted Z.le l -> Forall (fun q => q <= 100) l ->
            StronglySorted Z.le (l ++ [100]) /\ last (l ++ [100]) 0 = 100).
  { intros l Hs F. split; [| apply last_snoc].
    apply sorted_app; [exact Hs | repeat constructor |].
    intros x y Hx [<- | []]. rewrite Forall_forall in F. apply (F x Hx). }
  destruct type; unfold RefFind.
  - destruct (MemFindBaseAddr dbg Address) as [regionBase regionSize].
    destruct ((regionBase =? 0) || (regionSize =? 0)).
    { eexists _, _. split; [reflexivity |].
      destruct Silent; simpl; repeat split; (constructor || congruence || discriminate). }
    destruct (region_range pf Address Size regionBase regionSize) as [scanStart scanSize].
    destruct (Scan scanStart scanSize
                (init_refInfo UserData (region_fullName pf dbg Name scanStart))
                region_progress overall_region reads_region)
      as [r [ri [ev1 [R [Hs [F [Rd Hl]]]]]]].
    rewrite R. destruct (Z.eqb_spec r 0) as [-> | N].
    + eexists _, _. split; [reflexivity |]. rewrite overall_app, reads_app, app_nil_r.
      simpl. rewrite app_nil_r, Rd.
      split; [exact Hs |]. split; [congruence |].
      intros _ a n Ha. injection Ha as <- <-. exact Hl.
    + eexists _, _. split; [reflexivity |].
      rewrite !overall_app. simpl. rewrite app_nil_r.
      destruct (End _ Hs F) as [A B]. split; [exact A |].
      split; intros; exact B.
  - destruct (ModInfoFromAddr dbg Address) as [modInfo |].
    2: { eexists _, _. split; [reflexivity |].
         destruct Silent; simpl; repeat split;
           (constructor || congruence || discriminate). }
    destruct (Scan (base modInfo) (size modInfo)
                (init_refInfo UserData (module_fullName pf dbg Name (base modInfo)))
                module_progress overall_module reads_module)
      as [r [ri [ev1 [R [Hs [F [Rd Hl]]]]]]].
    rewrite R. destruct (Z.eqb_spec r 0) as [-> | N].
    + eexists _, _. split; [reflexivity |]. rewrite Rd.
      split; [exact Hs |]. split; [congruence |].
      intros _ a n Ha. injection Ha as <- <-. exact Hl.
    + eexists _, _. split; [reflexivity |].
      rewrite !overall_app. simpl. rewrite app_nil_r.
      destruct (End _ Hs F) as [A B]. split; [exact A |].
      split; intros; exact B.
  - destruct (ModGetList dbg) as [| m0 l0] eqn:L.
    { eexists _, _. split; [reflexivity |].
      destruct Silent; simpl; repeat split; (constructor || congruence). }
    destruct (modules_loop_progress pf dbg cp fuel Callback UserData Silent
                (Z.of_nat (List.length (m0 :: l0))) maxlen Hdec Hmax Hfit Hcount
                (m0 :: l0) 0 (init_refInfo UserData (all_fullName Name)))
      as [r [ev1 [E [Hs F]]]]; [lia | lia |].
    rewrite E. destruct r as [r | ri].
    + exists r, ev1. split; [reflexivity |]. split; [exact Hs |].
      split; [| congruence].
      intros N. apply modules_loop_returned in E. contradiction.
    + eexists _, _. split; [reflexivity |]. rewrite overall_app. simpl.
      destruct (End _ Hs) as [A B]; [| split; [exact A | split; [intros _; exact B | congruence]]].
      eapply Forall_impl; [| exact F]. simpl. intros q Hq. lia.
Qed.

(** The same on the two modules with the jump first. *)
Lemma RefFind_progress_monotone_witness :
  decoder_advances capstone 2 /\ 1 <= 2 /\ reads_fit x64 jump_then_nops 2 3 /\
  Z.of_nat (List.length (ModGetList jump_then_nops)) < 2 ^ 24 /\
  exists ret ev,
    RefFind x64 jump_then_nops capstone 3 0 0 cbJmp [] true "refs" ALL_MODULES
      = Some (ret, ev) /\
    StronglySorted Z.le (overall ev) /\
    (ret <> 0 -> last (overall ev) 0 = 100).
Proof.
  assert (F : reads_fit x64 jump_then_nops 2 3).
  { apply (process_reads_fit _ 3); [repeat constructor; simpl; lia | lia | lia]. }
  split; [exact capstone_advances |]. split; [lia |]. split; [exact F |].
  split; [simpl; lia |].
  destruct (RefFind_progress_monotone x64 jump_then_nops capstone 2 3 0 0 cbJmp [] true
              "refs" ALL_MODULES capstone_advances ltac:(lia) F ltac:(simpl; lia))
    as [ret [ev [R [Hs [Hl _]]]]].
  exists ret, ev. split; [exact R |]. split; [exact Hs | exact Hl].
Defined.

(** C8.  In the region scope, when the lookup gives no base or no size,
    [RefFind] returns 0; it prints the diagnostic with the address unless
    [Silent], and does nothing else: no read of the debuggee's memory is
    attempted. *)
Theorem RefFind_region_not_found {I U : Type} (pf : Platform) (dbg : Debuggee)
    (cp : Capstone I) (fuel : nat) (Address Size : Z) (Callback : CBREF I U)
    (UserData : U) (Silent : bool) (Name : string) :
  fst (MemFindBaseAddr dbg Address) = 0 \/ snd (MemFindBaseAddr dbg Address) = 0 ->
  exists ev,
    RefFind pf dbg cp fuel Address Size Callback UserData Silent Name CURRENT_REGION
      = Some (0, ev) /\
    ev = (if Silent then []
          else [dprintf ("Invalid memory page 0x" ++ fmt_p pf Address ++ nl)]) /\
    reads ev = [].
Proof.
  intros H. unfold RefFind.
  destruct (MemFindBaseAddr dbg Address) as [regionBase regionSize]. simpl in H.
  assert (G : (regionBase =? 0) || (regionSize =? 0) = true).
  { destruct H as [-> | ->]; [reflexivity | apply orb_true_r]. }
  rewrite G. eexists. split; [reflexivity |]. split; [reflexivity |].
  destruct Silent; reflexivity.
Qed.

(** C8, on an address that lies in no region. *)
Lemma RefFind_region_not_found_witness :
  fst (MemFindBaseAddr one_nop 0x501000) = 0 /\
  exists ev,
    RefFind x64 one_nop capstone 1 0x501000 0 cbAll [] false "refs" CURRENT_REGION
      = Some (0, ev) /\
    ev = [dprintf ("Invalid memory page 0x" ++ hex 16 0x501000 ++ nl)] /\
    reads ev = [].
Proof.
  split; [reflexivity |].
  apply (RefFind_region_not_found x64 one_nop capstone 1 0x501000 0 cbAll [] false "refs").
  left. reflexivity.
Defined.

(** C9.  A scan returns 0 when the read fails and the count of the
    context otherwise.  Whenever a scan returns 0, for the one reason or
    the other, [RefFind] returns 0 on the spot.  In the region scope the
    events end with the refresh that follows the scan, in the module scope
    with the scan itself, and in the all-modules scope with the scan of
    that module: the modules after it are not scanned.  In no scope does
    the final report of 100 with its refresh follow. *)
Theorem RefFind_returns_on_zero_scan {I U : Type} (pf : Platform) (dbg : Debuggee)
    (cp : Capstone I) (fuel : nat) (Address Size : Z) (Callback : CBREF I U)
    (UserData : U) (Silent : bool) (Name : string) :
  (forall scanStart scanSize refInfo initCallBack prog ret refInfo' ev,
     RefFindInRange pf dbg cp fuel scanStart scanSize Callback UserData Silent refInfo
       initCallBack prog = Some (ret, refInfo', ev) ->
     (MemRead dbg scanStart scanSize = None /\ ret = 0) \/
     (MemRead dbg scanStart scanSize <> None /\ ret = refcount refInfo')) /\
  (forall regionBase regionSize refInfo' ev,
     MemFindBaseAddr dbg Address = (regionBase, regionSize) ->
     regionBase <> 0 -> regionSize <> 0 ->
     let range := region_range pf Address Size regionBase regionSize in
     RefFindInRange pf dbg cp fuel (fst range) (snd range) Callback UserData Silent
       (init_refInfo UserData (region_fullName pf dbg Name (fst range)))
       true region_progress = Some (0, refInfo', ev) ->
     RefFind pf dbg cp fuel Address Size Callback UserData Silent Name CURRENT_REGION
       = Some (0, ev ++ [GuiReferenceReloadData])) /\
  (forall modInfo refInfo' ev,
     ModInfoFromAddr dbg Address = Some modInfo ->
     RefFindInRange pf dbg cp fuel (base modInfo) (size modInfo) Callback UserData Silent
       (init_refInfo UserData (module_fullName pf dbg Name (base modInfo)))
       true module_progress = Some (0, refInfo', ev) ->
     RefFind pf dbg cp fuel Address Size Callback UserData Silent Name CURRENT_MODULE
       = Some (0, ev)) /\
  (forall pre m post refInfo1 ev1 refInfo2 ev2,
     ModGetList dbg = pre ++ m :: post ->
     let count := Z.of_nat (List.length (ModGetList dbg)) in
     let i := Z.of_nat (List.length pre) in
     modules_loop pf dbg cp fuel Callback UserData Silent count pre 0
       (init_refInfo UserData (all_fullName Name)) = Some (Finished refInfo1, ev1) ->
     RefFindInRange pf dbg cp fuel (base m) (size m) Callback UserData Silent refInfo1
       (i =? 0) (all_modules_progress i count (name m)) = Some (0, refInfo2, ev2) ->
     RefFind pf dbg cp fuel Address Size Callback UserData Silent Name ALL_MODULES
       = Some (0, ev1 ++ ev2)).
Proof.
  split; [| split; [| split]].
  - intros scanStart scanSize refInfo initCallBack prog ret refInfo' ev H.
    destruct (RefFindInRange_inv pf dbg cp _ _ _ _ _ _ _ _ _ _ _ _ H)
      as [[M [Z0 _]] | [d [M [Rc _]]]]; [left | right]; split; congruence.
  - intros regionBase regionSize refInfo' ev L Hb Hs range R. unfold RefFind. rewrite L.
    apply Z.eqb_neq in Hb, Hs. rewrite Hb, Hs. simpl orb. cbv iota.
    fold range. destruct range as [scanStart scanSize]. simpl in R. rewrite R.
    reflexivity.
  - intros modInfo refInfo' ev L R. unfold RefFind. rewrite L, R. reflexivity.
  - intros pre m post refInfo1 ev1 refInfo2 ev2 L count i P R. unfold RefFind.
    fold count. rewrite L. destruct (pre ++ m :: post) as [| m0 l0] eqn:E.
    + destruct pre; discriminate.
    + rewrite <- E. rewrite modules_loop_app, P. simpl Z.add. fold i.
      simpl modules_loop. rewrite R. reflexivity.
Qed.

(** C9, on [a.exe], which reads well and has no jump: in each of the
    three scopes the search for jumps ends with the scan, and in the
    all-modules scope [b.dll] is left out. *)
Lemma RefFind_returns_on_zero_scan_witness :
  RefFind x64 nops_then_jump capstone 3 0x401000 0 cbJmp [] true "refs" CURRENT_REGION
  = Some (0, [EvMemRead 0x401000 2;
              GuiReferenceSetCurrentTaskProgress 0 "Region Search"; GuiReferenceSetProgress 0;
              GuiReferenceSetCurrentTaskProgress 100 "Region Search"; GuiReferenceSetProgress 100]
             ++ [GuiReferenceReloadData]) /\
  RefFind x64 nops_then_jump capstone 3 0x401000 0 cbJmp [] true "refs" CURRENT_MODULE
  = Some (0, [EvMemRead 0x401000 2;
              GuiReferenceSetCurrentTaskProgress 0 "Module Search"; GuiReferenceSetProgress 0;
              GuiReferenceSetCurrentTaskProgress 100 "Module Search"; GuiReferenceSetProgress 100]) /\
  RefFind x64 nops_then_jump capstone 3 0x401000 0 cbJmp [] true "refs" ALL_MODULES
  = Some (0, [] ++ [EvMemRead 0x401000 2;
                    GuiReferenceSetCurrentTaskProgress 0 "a.exe"; GuiReferenceSetProgress 0;
                    GuiReferenceSetCurrentTaskProgress 100 "a.exe"; GuiReferenceSetProgress 50]).
Proof.
  destruct (RefFind_returns_on_zero_scan x64 nops_then_jump capstone 3 0x401000 0 cbJmp []
              true "refs") as [_ [Hregion [Hmodule Hall]]].
  split; [| split].
  - eapply (Hregion 0x401000 2); [reflexivity | discriminate | discriminate |].
    vm_compute. reflexivity.
  - eapply (Hmodule {| base := 0x401000; size := 2; name := "a.exe" |}); [reflexivity |].
    vm_compute. reflexivity.
  - eapply (Hall [] {| base := 0x401000; size := 2; name := "a.exe" |}
              [{| base := 0x501000; size := 3; name := "b.dll" |}]);
      [reflexivity | reflexivity |].
    vm_compute. reflexivity.
Defined.

(** C10.  With a decoder whose lengths lie between 1 and [maxlen], on a
    range that ends [maxlen] bytes or more below the top of [duint], every
    iteration of the sweep adds to the offset the length decoded or, when
    there is none, one byte, so the offset grows; and [scanSize] iterations
    from offset 0, or as many as are left from a later offset, bring the
    loop to its end, with the offset at [scanSize] or beyond. *)
Theorem sweep_terminates {I U : Type} (pf : Platform) (cp : Capstone I)
    (maxlen scanSize : Z) (data : list byte) (Callback : CBREF I U)
    (prog : CBPROGRESS) (st : Sweep U) :
  decoder_advances cp maxlen -> 1 <= maxlen ->
  scanSize + maxlen <= 2 ^ ptr_bits pf -> 0 <= off st ->
  (off st < scanSize ->
   off (fst (sweep_step pf cp scanSize data Callback prog st))
   = off st + step_length pf cp scanSize data st /\
   off st < off (fst (sweep_step pf cp scanSize data Callback prog st))) /\
  forall fuel, (Z.to_nat (scanSize - off st) <= fuel)%nat ->
    exists st' ev,
      sweep pf cp fuel scanSize data Callback prog st = Some (st', ev) /\
      scanSize <= off st'.
Proof.
  intros Hdec Hmax Hfit H0. split.
  - intros L.
    pose proof (sweep_step_advance pf cp scanSize data Callback maxlen Hdec Hmax Hfit
                  prog st (conj H0 L)) as A.
    pose proof (step_length_range pf cp scanSize data maxlen Hdec Hmax st) as R.
    split; [exact A | lia].
  - intros fuel Hf.
    apply (sweep_enough pf cp scanSize data Callback maxlen Hdec Hmax Hfit); assumption.
Qed.

(** C10, on a jump and a [nop]: three iterations are enough. *)
Lemma sweep_terminates_witness :
  decoder_advances capstone 2 /\ 1 <= 2 /\ 3 + 2 <= 2 ^ 64 /\
  exists st' ev,
    sweep x64 capstone 3 3 [xeb; x00; x90] cbAll region_progress
      {| off := 0; addr := 0x501000; info := fresh "refs" |} = Some (st', ev) /\
    3 <= off st'.
Proof.
  split; [exact capstone_advances |]. split; [lia |]. split; [lia |].
  apply (sweep_terminates x64 capstone 2 3 [xeb; x00; x90] cbAll region_progress
           {| off := 0; addr := 0x501000; info := fresh "refs" |});
    [exact capstone_advances | lia | simpl; lia | simpl; lia | simpl; lia].
Defined.

(** * Further properties *)

(** X1.  When the module of the address is not found the module scope
    returns 0, and when the list of modules is empty so does the
    all-modules scope; either prints its diagnostic unless [Silent], the
    second without a line break, and does nothing else: no read, no
    progress, no refresh, whatever the callback. *)
Theorem RefFind_lookup_failures {I U : Type} (pf : Platform) (dbg : Debuggee)
    (cp : Capstone I) (fuel : nat) (Address Size : Z) (Callback : CBREF I U)
    (UserData : U) (Silent : bool) (Name : string) :
  (ModInfoFromAddr dbg Address = None ->
   RefFind pf dbg cp fuel Address Size Callback UserData Silent Name CURRENT_MODULE
   = Some (0, if Silent then []
              else [dprintf ("Couldn't locate module for 0x" ++ fmt_p pf Address ++ nl)])) /\
  (ModGetList dbg = [] ->
   RefFind pf dbg cp fuel Address Size Callback UserData Silent Name ALL_MODULES
   = Some (0, if Silent then [] else [dprintf "Couldn't get module list"])).
Proof.
  split; intros H; unfold RefFind; rewrite H; reflexivity.
Qed.

(** X1, on an address outside every module, and on a process without
    modules. *)
Lemma RefFind_lookup_failures_witness :
  RefFind x64 one_nop capstone 1 0x501000 0 cbAll [] false "refs" CURRENT_MODULE
  = Some (0, [dprintf ("Couldn't locate module for 0x" ++ hex 16 0x501000 ++ nl)]) /\
  RefFind x64 (process []) capstone 1 0 0 cbAll [] false "refs" ALL_MODULES
  = Some (0, [dprintf "Couldn't get module list"]).
Proof.
  split.
  - apply (RefFind_lookup_failures x64 one_nop capstone 1 0x501000 0 cbAll [] false "refs").
    reflexivity.
  - apply (RefFind_lookup_failures x64 (process []) capstone 1 0 0 cbAll [] false "refs").
    reflexivity.
Defined.

(** X2.  The range of the region scope, for an address at a distance
    [d] into its region.  Without a size it is the whole region.  With a
    size of at least [d] it starts at the address and has [Size - d]
    bytes.  With a smaller size the subtraction wraps around and the range
    has [Size] bytes, unclamped.  The size of the region enters in the
    first case only. *)
Theorem region_range_cases (pf : Platform) (Address Size regionBase regionSize : Z) :
  0 <= regionBase <= Address -> Address < 2 ^ ptr_bits pf ->
  0 <= Size < 2 ^ ptr_bits pf ->
  region_range pf Address Size regionBase regionSize
  = if Size =? 0 then (regionBase, regionSize)
    else if Address - regionBase <=? Size then (Address, Size - (Address - regionBase))
    else (Address, Size).
Proof.
  intros Hb Ha Hs. unfold region_range, wrap.
  destruct (Size =? 0); [reflexivity |].
  rewrite (Z.mod_small (Address - regionBase)) by lia.
  destruct (Z.leb_spec (Address - regionBase) Size) as [L | G].
  - rewrite Z.mod_small by lia. f_equal. lia.
  - rewrite <- (Z_mod_plus_full (Size - (Address - regionBase)) 1 (2 ^ ptr_bits pf)).
    rewrite Z.mod_small by lia. f_equal. lia.
Qed.

(** X2, on a search of 4 bytes from the ninth byte of a region: the
    range is 4 bytes long, and of 12 bytes: the range is 4 bytes long. *)
Lemma region_range_cases_witness :
  region_range x64 0x401008 4 0x401000 16 = (0x401008, 4) /\
  region_range x64 0x401008 12 0x401000 16 = (0x401008, 4).
Proof.
  split.
  - apply (region_range_cases x64 0x401008 4 0x401000 16); simpl; lia.
  - apply (region_range_cases x64 0x401008 12 0x401000 16); simpl; lia.
Defined.

(** X3.  On a range below 2 GiB every call of the decoder is made at
    the address [scanStart + i] of the offset [i] it reads from, with a
    window of at least one byte and at most [MAX_DISASM_BUFFER] bytes that
    ends within the buffer; the calls are made at the offsets the sweep
    visits, one per iteration. *)
Theorem sweep_decoder_calls_in_bounds {I U : Type} (pf : Platform) (cp : Capstone I)
    (maxlen : Z) (fuel : nat) (scanStart scanSize : Z) (data : list byte)
    (Callback : CBREF I U) (refInfo : REFINFO U) :
  decoder_advances cp maxlen -> 1 <= maxlen -> scanSize + maxlen <= 2 ^ ptr_bits pf ->
  1 <= MAX_DISASM_BUFFER cp -> scanSize < 2 ^ 31 -> 31 <= ptr_bits pf ->
  0 <= scanStart < 2 ^ ptr_bits pf ->
  let st0 := {| off := 0; addr := scanStart; info := refInfo |} in
  Forall (fun c => let '(a, i, w) := c in
                   a = wrap (ptr_bits pf) (scanStart + i) /\
                   0 <= i < scanSize /\
                   1 <= w <= MAX_DISASM_BUFFER cp /\ i + w <= scanSize)
         (sweep_calls pf cp fuel scanSize data Callback st0) /\
  map (fun c => snd (fst c)) (sweep_calls pf cp fuel scanSize data Callback st0)
  = sweep_offsets pf cp fuel scanSize data Callback st0.
Proof.
  intros Hdec Hmax Hfit Hm Hs Hp Ha st0. split.
  - apply (sweep_calls_bounds pf cp scanSize data Callback maxlen Hdec Hmax Hfit scanStart
             fuel st0 Hm Hs Hp); simpl; [lia |].
    rewrite Z.add_0_r. unfold wrap. symmetry. apply Z.mod_small. exact Ha.
  - generalize st0. clear. induction fuel as [| fuel IH]; intros st; simpl.
    + destruct (off st <? scanSize); reflexivity.
    + destruct (off st <? scanSize); [| reflexivity]. simpl. f_equal. apply IH.
Qed.

(** X3, on a jump and a [nop]: the jump is decoded with the three bytes
    that are left, the [nop] with one. *)
Lemma sweep_decoder_calls_in_bounds_witness :
  decoder_advances capstone 2 /\
  sweep_calls x64 capstone 3 3 [xeb; x00; x90] cbAll
    {| off := 0; addr := 0x501000; info := fresh "refs" |}
  = [(0x501000, 0, 3); (0x501002, 2, 1)] /\
  Forall (fun c => let '(a, i, w) := c in
                   a = wrap 64 (0x501000 + i) /\ 0 <= i < 3 /\ 1 <= w <= 16 /\ i + w <= 3)
         (sweep_calls x64 capstone 3 3 [xeb; x00; x90] cbAll
            {| off := 0; addr := 0x501000; info := fresh "refs" |}).
Proof.
  split; [exact capstone_advances |]. split; [reflexivity |].
  apply (sweep_decoder_calls_in_bounds x64 capstone 2 3 0x501000 3 [xeb; x00; x90] cbAll
           (fresh "refs") capstone_advances); simpl; lia.
Defined.

(** X4.  With a decoder that reports no more bytes than its window, on
    a range below 2 GiB, the sweep ends with the offset at [scanSize]
    exactly and the address at [scanStart + scanSize]: no instruction is
    taken across the end of the range. *)
Theorem sweep_ends_at_end_of_range {I U : Type} (pf : Platform) (cp : Capstone I)
    (fuel : nat) (scanStart scanSize : Z) (data : list byte) (Callback : CBREF I U)
    (prog : CBPROGRESS) (refInfo : REFINFO U) :
  decoder_bounded cp -> 1 <= MAX_DISASM_BUFFER cp ->
  0 <= scanSize < 2 ^ 31 -> 31 <= ptr_bits pf -> 0 <= scanStart < 2 ^ ptr_bits pf ->
  scanSize <= Z.of_nat fuel ->
  exists st' ev,
    sweep pf cp fuel scanSize data Callback prog
      {| off := 0; addr := scanStart; info := refInfo |} = Some (st', ev) /\
    off st' = scanSize /\ addr st' = wrap (ptr_bits pf) (scanStart + scanSize).
Proof.
  intros Hb Hm Hs Hp Ha Hf.
  apply (sweep_exact pf cp scanSize data Callback Hb Hm ltac:(lia) Hp scanStart prog fuel);
    simpl; [lia | | lia].
  rewrite Z.add_0_r. unfold wrap. symmetry. apply Z.mod_small. exact Ha.
Qed.

(** X4, on two [nop]s and the first byte of a jump: the jump does not
    fit and the last byte is stepped over alone. *)
Lemma sweep_ends_at_end_of_range_witness :
  decoder_bounded capstone /\
  exists st' ev,
    sweep x64 capstone 3 3 [x90; x90; xeb] cbAll region_progress
      {| off := 0; addr := 0x401000; info := fresh "refs" |} = Some (st', ev) /\
    off st' = 3 /\ addr st' = wrap 64 (0x401000 + 3).
Proof.
  split; [exact capstone_bounded |].
  apply (sweep_ends_at_end_of_range x64 capstone 3 0x401000 3 [x90; x90; xeb] cbAll
           region_progress (fresh "refs") capstone_bounded); simpl; lia.
Defined.

(** X5.  What a scan emits does not depend on the callback, on the
    context or on whether the callback is initialised: with another
    callback the scan of the same range returns as well and emits the same
    events, the read and the same progress reports, in the same order. *)
Theorem RefFindInRange_events_whatever_callback {I U : Type} (pf : Platform)
    (dbg : Debuggee) (cp : Capstone I) (fuel : nat) (scanStart scanSize : Z)
    (Callback1 Callback2 : CBREF I U) (UserData1 UserData2 : U) (Silent : bool)
    (refInfo1 refInfo2 refInfo1' : REFINFO U) (init1 init2 : bool) (prog : CBPROGRESS)
    (ret1 : Z) (ev : list Event) :
  RefFindInRange pf dbg cp fuel scanStart scanSize Callback1 UserData1 Silent refInfo1
    init1 prog = Some (ret1, refInfo1', ev) ->
  exists ret2 refInfo2',
    RefFindInRange pf dbg cp fuel scanStart scanSize Callback2 UserData2 Silent refInfo2
      init2 prog = Some (ret2, refInfo2', ev).
Proof.
  unfold RefFindInRange. intros H.
  destruct (MemRead dbg scanStart scanSize) as [data |].
  - destruct (sweep pf cp fuel scanSize data Callback1 prog _) as [[st1 ev1] |] eqn:E;
      [| discriminate].
    injection H as _ _ <-.
    destruct (sweep_callback pf cp scanSize data Callback1 Callback2 prog fuel
                {| off := 0; addr := scanStart;
                   info := if init1 then snd (Callback1 None refInfo1) else refInfo1 |}
                {| off := 0; addr := scanStart;
                   info := if init2 then snd (Callback2 None refInfo2) else refInfo2 |}
                st1 ev1 eq_refl eq_refl E) as [st2 E2].
    rewrite E2. eauto.
  - injection H as _ _ <-. eauto.
Qed.

(** X5, on [b.dll]: the search for jumps and the search for every
    instruction emit the same. *)
Lemma RefFindInRange_events_whatever_callback_witness :
  exists ret1 ret2 refInfo1' refInfo2' ev,
    RefFindInRange x64 jump_then_nops capstone 3 0x501000 3 cbJmp [] true (fresh "jumps")
      true module_progress = Some (ret1, refInfo1', ev) /\
    RefFindInRange x64 jump_then_nops capstone 3 0x501000 3 cbAll [] true (fresh "all")
      false module_progress = Some (ret2, refInfo2', ev) /\
    ret1 = 1 /\ ret2 = 2.
Proof.
  destruct (RefFindInRange x64 jump_then_nops capstone 3 0x501000 3 cbJmp [] true
              (fresh "jumps") true module_progress) as [[[ret1 ri1] ev] |] eqn:R1;
    [| vm_compute in R1; discriminate].
  destruct (RefFindInRange_events_whatever_callback x64 jump_then_nops capstone 3 0x501000 3
              cbJmp cbAll [] [] true (fresh "jumps") (fresh "all") ri1 true false
              module_progress ret1 ev R1) as [ret2 [ri2 R2]].
  exists ret1, ret2, ri1, ri2, ev. split; [reflexivity |]. split; [exact R2 |].
  vm_compute in R1, R2. injection R1 as <- _ _. injection R2 as <- _ _.
  split; reflexivity.
Defined.

(** X6.  A scan of [scanSize] bytes reports its progress at most once
    for every 4096 bytes begun, and once more at the end: the progress
    callback runs on a list of at most [ceil(scanSize / 4096)] percentages
    and then on 100. *)
Theorem RefFindInRange_reports_once_per_page {I U : Type} (pf : Platform) (dbg : Debuggee)
    (cp : Capstone I) (maxlen : Z) (fuel : nat) (scanStart scanSize : Z)
    (data : list byte) (Callback : CBREF I U) (UserData : U) (Silent : bool)
    (refInfo : REFINFO U) (initCallBack : bool) (prog : CBPROGRESS) :
  decoder_advances cp maxlen -> 1 <= maxlen ->
  scanSize + maxlen <= 2 ^ ptr_bits pf -> scanSize <= Z.of_nat fuel ->
  MemRead dbg scanStart scanSize = Some data ->
  exists ret refInfo' ps,
    RefFindInRange pf dbg cp fuel scanStart scanSize Callback UserData Silent refInfo
      initCallBack prog
    = Some (ret, refInfo', EvMemRead scanStart scanSize :: flat_map prog (ps ++ [100])) /\
    4096 * Z.of_nat (List.length ps) <= Z.max 0 scanSize + 4095.
Proof.
  intros Hdec Hmax Hfit Hfuel M.
  set (st0 := {| off := 0; addr := scanStart;
                 info := if initCallBack then snd (Callback None refInfo) else refInfo |}).
  destruct (sweep_enough pf cp scanSize data Callback maxlen Hdec Hmax Hfit prog fuel st0)
    as [st' [ev1 [E _]]]; [simpl; lia | simpl; lia |].
  assert (R : RefFindInRange pf dbg cp fuel scanStart scanSize Callback UserData Silent
                refInfo initCallBack prog
              = Some (refcount (info st'), info st',
                      EvMemRead scanStart scanSize :: ev1 ++ prog 100)).
  { unfold RefFindInRange. rewrite M. fold st0. rewrite E. reflexivity. }
  destruct (RefFindInRange_inv pf dbg cp _ _ _ _ _ _ _ _ _ _ _ _ R) as [[C _] | [d [Md [_ Ev]]]];
    [congruence |].
  rewrite M in Md. injection Md as <-. fold st0 in Ev.
  exists (refcount (info st')), (info st'),
         (percents_of scanSize (sweep_offsets pf cp fuel scanSize data Callback st0)).
  split; [rewrite R, Ev; reflexivity |].
  destruct (sweep_offsets_sorted pf cp scanSize data Callback maxlen Hdec Hmax Hfit fuel st0)
    as [Hs F]; [simpl; lia |].
  unfold percents_of. rewrite length_map.
  pose proof (aligned_count (filter aligned
                (sweep_offsets pf cp fuel scanSize data Callback st0)) 0 scanSize
                (sorted_filter Z.lt aligned _ Hs)) as A.
  rewrite Z.sub_0_r in A. apply A.
  apply Forall_forall. intros j Hj. apply filter_In in Hj. destruct Hj as [Hin Hal].
  rewrite Forall_forall in F. pose proof (F j Hin) as Hr. simpl in Hr.
  unfold aligned in Hal. apply Z.eqb_eq in Hal. split; [lia | exact Hal].
Qed.

(** X6, on the 4100 bytes with a jump across offset 4096: one report
    before the final one, where two pages were begun. *)
Lemma RefFindInRange_reports_once_per_page_witness :
  decoder_advances capstone 2 /\
  exists ret refInfo' ps,
    RefFindInRange x64 straddle capstone 4100 0x401000 4100 cbAll [] true (fresh "refs")
      true region_progress
    = Some (ret, refInfo', EvMemRead 0x401000 4100 :: flat_map region_progress (ps ++ [100])) /\
    4096 * Z.of_nat (List.length ps) <= Z.max 0 4100 + 4095.
Proof.
  split; [exact capstone_advances |].
  apply (RefFindInRange_reports_once_per_page x64 straddle capstone 2 4100 0x401000 4100
           (repeat x06 (page - 1) ++ [xeb; x00] ++ repeat x06 3) cbAll [] true (fresh "refs")
           true region_progress capstone_advances); [lia | simpl; lia | lia |].
  vm_compute. reflexivity.
Defined.

(** X7.  A scan whose read succeeds returns the count of the context as
    it stands after the scan: the count that came in plus the matches of
    this range, not the matches of the range alone.  The matches are at
    most as many as the bytes. *)
Theorem RefFindInRange_returns_running_count {I U : Type} (pf : Platform) (dbg : Debuggee)
    (cp : Capstone I) (maxlen : Z) (fuel : nat) (scanStart scanSize : Z)
    (data : list byte) (Callback : CBREF I U) (UserData : U) (Silent : bool)
    (refInfo : REFINFO U) (initCallBack : bool) (prog : CBPROGRESS) :
  decoder_advances cp maxlen -> 1 <= maxlen -> keeps_count Callback ->
  MemRead dbg scanStart scanSize = Some data ->
  scanSize + maxlen <= 2 ^ ptr_bits pf -> scanSize <= Z.of_nat fuel ->
  0 <= refcount refInfo -> refcount refInfo + Z.max 0 scanSize < 2 ^ 31 ->
  let hits := scan_hits pf dbg cp fuel scanStart scanSize Callback refInfo initCallBack in
  exists refInfo' ev,
    RefFindInRange pf dbg cp fuel scanStart scanSize Callback UserData Silent refInfo
      initCallBack prog = Some (refcount refInfo + hits, refInfo', ev) /\
    refcount refInfo' = refcount refInfo + hits /\
    0 <= hits <= Z.max 0 scanSize.
Proof.
  intros Hdec Hmax Hkeep M Hfit Hfuel H0 Hb.
  apply (scan_count pf dbg cp maxlen fuel Callback UserData Silent Hdec Hmax Hkeep
           scanStart scanSize data); assumption.
Qed.

(** X7, on the jump and the [nop] of [b.dll], entered with a count of 5. *)
Lemma RefFindInRange_returns_running_count_witness :
  decoder_advances capstone 2 /\ keeps_count cbJmp /\
  exists refInfo' ev,
    RefFindInRange x64 jump_then_nops capstone 3 0x501000 3 cbJmp [] true
      {| refcount := 5; userinfo := []; refname := "refs" |} false module_progress
    = Some (6, refInfo', ev) /\ refcount refInfo' = 6.
Proof.
  split; [exact capstone_advances |]. split; [exact cbJmp_keeps_count |].
  destruct (RefFindInRange_returns_running_count x64 jump_then_nops capstone 2 3 0x501000 3
              [xeb; x00; x90] cbJmp [] true
              {| refcount := 5; userinfo := []; refname := "refs" |} false module_progress
              capstone_advances ltac:(lia) cbJmp_keeps_count eq_refl
              ltac:(simpl; lia) ltac:(simpl; lia) ltac:(simpl; lia) ltac:(simpl; lia))
    as [refInfo' [ev [R [C _]]]].
  exists refInfo', ev. split; [exact R | exact C].
Defined.

(** X8.  The module scope returns the number of matches in the module,
    which lies between 0 and the size of the module. *)
Theorem RefFind_module_returns_matches {I U : Type} (pf : Platform) (dbg : Debuggee)
    (cp : Capstone I) (maxlen : Z) (fuel : nat) (Address Size : Z)
    (Callback : CBREF I U) (UserData : U) (Silent : bool) (Name : string)
    (m : MODINFO) (data : list byte) :
  decoder_advances cp maxlen -> 1 <= maxlen -> keeps_count Callback ->
  ModInfoFromAddr dbg Address = Some m ->
  MemRead dbg (base m) (size m) = Some data ->
  size m + maxlen <= 2 ^ ptr_bits pf -> size m <= Z.of_nat fuel -> size m < 2 ^ 31 ->
  let hits := scan_hits pf dbg cp fuel (base m) (size m) Callback
                (init_refInfo UserData (module_fullName pf dbg Name (base m))) true in
  exists ev,
    RefFind pf dbg cp fuel Address Size Callback UserData Silent Name CURRENT_MODULE
      = Some (hits, ev) /\
    0 <= hits <= Z.max 0 (size m).
Proof.
  intros Hdec Hmax Hkeep L M Hfit Hfuel Hb hits.
  destruct (scan_count pf dbg cp maxlen fuel Callback UserData Silent Hdec Hmax Hkeep
              (base m) (size m) data
              (init_refInfo UserData (module_fullName pf dbg Name (base m))) true
              module_progress M Hfit Hfuel ltac:(simpl; lia) ltac:(simpl; lia))
    as [ri [ev [R [C B]]]].
  fold hits in R, C, B. simpl refcount in R, C. rewrite Z.add_0_l in R, C.
  clearbody hits. unfold RefFind. rewrite L, R.
  destruct (Z.eqb_spec hits 0) as [E | N].
  - exists ev. split; [reflexivity | exact B].
  - eexists. unfold RefFind_end. rewrite C. split; [reflexivity | exact B].
Qed.

(** X8, on [b.dll] searched for jumps. *)
Lemma RefFind_module_returns_matches_witness :
  decoder_advances capstone 2 /\ keeps_count cbJmp /\
  exists ev,
    RefFind x64 jump_then_nops capstone 3 0x501001 0 cbJmp [] true "refs" CURRENT_MODULE
    = Some (1, ev).
Proof.
  split; [exact capstone_advances |]. split; [exact cbJmp_keeps_count |].
  destruct (RefFind_module_returns_matches x64 jump_then_nops capstone 2 3 0x501001 0
              cbJmp [] true "refs" {| base := 0x501000; size := 3; name := "b.dll" |}
              [xeb; x00; x90]
              capstone_advances ltac:(lia) cbJmp_keeps_count eq_refl eq_refl
              ltac:(simpl; lia) ltac:(simpl; lia) ltac:(simpl; lia))
    as [ev [R _]].
  exists ev. exact R.
Defined.

(** X9.  The region scope returns twice the number of matches in the
    range it scanned. *)
Theorem RefFind_region_returns_twice_matches {I U : Type} (pf : Platform) (dbg : Debuggee)
    (cp : Capstone I) (maxlen : Z) (fuel : nat) (Address Size : Z)
    (Callback : CBREF I U) (UserData : U) (Silent : bool) (Name : string)
    (regionBase regionSize : Z) (data : list byte) :
  decoder_advances cp maxlen -> 1 <= maxlen -> keeps_count Callback ->
  MemFindBaseAddr dbg Address = (regionBase, regionSize) ->
  regionBase <> 0 -> regionSize <> 0 ->
  let scanStart := fst (region_range pf Address Size regionBase regionSize) in
  let scanSize := snd (region_range pf Address Size regionBase regionSize) in
  MemRead dbg scanStart scanSize = Some data ->
  scanSize + maxlen <= 2 ^ ptr_bits pf -> scanSize <= Z.of_nat fuel ->
  2 * scanSize < 2 ^ 31 ->
  let hits := scan_hits pf dbg cp fuel scanStart scanSize Callback
                (init_refInfo UserData (region_fullName pf dbg Name scanStart)) true in
  exists ev,
    RefFind pf dbg cp fuel Address Size Callback UserData Silent Name CURRENT_REGION
      = Some (2 * hits, ev) /\
    0 <= hits <= Z.max 0 scanSize.
Proof.
  intros Hdec Hmax Hkeep L Hb Hs scanStart scanSize M Hfit Hfuel Hbound hits.
  destruct (scan_count pf dbg cp maxlen fuel Callback UserData Silent Hdec Hmax Hkeep
              scanStart scanSize data
              (init_refInfo UserData (region_fullName pf dbg Name scanStart)) true
              region_progress M Hfit Hfuel ltac:(simpl; lia) ltac:(simpl; lia))
    as [ri [ev [R [C B]]]].
  fold hits in R, C, B. simpl refcount in R, C. rewrite Z.add_0_l in R, C.
  clearbody hits. destruct (Z.eq_dec hits 0) as [E | N].
  - exists (ev ++ [GuiReferenceReloadData]). split; [| exact B].
    unfold RefFind. rewrite L.
    apply Z.eqb_neq in Hb, Hs. rewrite Hb, Hs. simpl orb. cbv iota.
    fold scanStart scanSize in R |- *.
    rewrite (surjective_pairing (region_range pf Address Size regionBase regionSize)).
    fold scanStart scanSize. rewrite R, E. reflexivity.
  - eexists. split; [| exact B].
    rewrite (RefFind_region_doubles pf dbg cp fuel Address Size Callback UserData Silent Name
               regionBase regionSize hits ri ev L Hb Hs R N).
    rewrite to_int_small by lia. do 2 f_equal. lia.
Qed.

(** X9, on the region with one [nop]. *)
Lemma RefFind_region_returns_twice_matches_witness :
  decoder_advances capstone 2 /\ keeps_count cbAll /\
  exists ev,
    RefFind x64 one_nop capstone 1 0x401000 0 cbAll [] false "refs" CURRENT_REGION
    = Some (2 * 1, ev).
Proof.
  split; [exact capstone_advances |]. split; [exact cbAll_keeps_count |].
  destruct (RefFind_region_returns_twice_matches x64 one_nop capstone 2 1 0x401000 0
              cbAll [] false "refs" 0x401000 1 [x90]
              capstone_advances ltac:(lia) cbAll_keeps_count eq_refl
              ltac:(discriminate) ltac:(discriminate) eq_refl
              ltac:(simpl; lia) ltac:(simpl; lia) ltac:(simpl; lia))
    as [ev [R _]].
  exists ev. exact R.
Defined.

(** X10.  The search of all modules returns; when it returns a count
    other than 0 every module was scanned and the count is the sum of the
    matches of the modules, each between 0 and the size of its module. *)
Theorem RefFind_all_modules_returns_sum {I U : Type} (pf : Platform) (dbg : Debuggee)
    (cp : Capstone I) (maxlen : Z) (fuel : nat) (Address Size : Z)
    (Callback : CBREF I U) (UserData : U) (Silent : bool) (Name : string) :
  decoder_advances cp maxlen -> 1 <= maxlen -> reads_fit pf dbg maxlen fuel ->
  keeps_count Callback -> total_size (ModGetList dbg) < 2 ^ 31 ->
  let hits := modules_hits pf dbg cp fuel Callback UserData Silent
                (Z.of_nat (List.length (ModGetList dbg))) (ModGetList dbg) 0
                (init_refInfo UserData (all_fullName Name)) in
  exists ret ev,
    RefFind pf dbg cp fuel Address Size Callback UserData Silent Name ALL_MODULES
      = Some (ret, ev) /\
    (ret <> 0 ->
     ret = Zsum hits /\
     Forall2 (fun h m => 0 <= h <= Z.max 0 (size m)) hits (ModGetList dbg)).
Proof.
  intros Hdec Hmax Hfit Hkeep Hb hits. subst hits. revert Hb. unfold RefFind.
  destruct (ModGetList dbg) as [| m0 l0]; intros Hb.
  - exists 0. eexists. split; [reflexivity |]. intros N. contradiction N. reflexivity.
  - set (refInfo := init_refInfo UserData (all_fullName Name)).
    destruct (modules_loop_runs pf dbg cp maxlen fuel Callback UserData Silent
                (Z.of_nat (List.length (m0 :: l0))) Hdec Hmax Hfit (m0 :: l0) 0 refInfo)
      as [r [ev E]].
    rewrite E. destruct r as [ret | ri].
    + exists ret, ev. split; [reflexivity |]. intros N.
      contradiction N. apply (modules_loop_returned _ _ _ _ _ _ _ _ _ _ _ _ _ E).
    + destruct (modules_loop_count pf dbg cp maxlen fuel Callback UserData Silent
                  (Z.of_nat (List.length (m0 :: l0))) Hdec Hmax Hfit Hkeep
                  (m0 :: l0) 0 refInfo ri ev ltac:(simpl; lia)
                  ltac:(change (refcount refInfo) with 0; lia) E)
        as [C [F _]].
      change (refcount refInfo) with 0 in C.
      eexists. eexists. unfold RefFind_end. split; [reflexivity |].
      intros _. split; [lia | exact F].
Qed.

(** X10, on the two modules with the jump first: one match in [b.dll],
    none in [a.exe]. *)
Lemma RefFind_all_modules_returns_sum_witness :
  decoder_advances capstone 2 /\ keeps_count cbJmp /\
  reads_fit x64 jump_then_nops 2 3 /\ total_size (ModGetList jump_then_nops) < 2 ^ 31 /\
  exists ev,
    RefFind x64 jump_then_nops capstone 3 0 0 cbJmp [] true "refs" ALL_MODULES
      = Some (1, ev) /\
    1 = Zsum (modules_hits x64 jump_then_nops capstone 3 cbJmp [] true 2
                (ModGetList jump_then_nops) 0 (init_refInfo [] (all_fullName "refs"))) /\
    modules_hits x64 jump_then_nops capstone 3 cbJmp [] true 2
      (ModGetList jump_then_nops) 0 (init_refInfo [] (all_fullName "refs")) = [1; 0].
Proof.
  assert (F : reads_fit x64 jump_then_nops 2 3).
  { apply (process_reads_fit _ 3); [repeat constructor; simpl; lia | lia | lia]. }
  split; [exact capstone_advances |]. split; [exact cbJmp_keeps_count |].
  split; [exact F |]. split; [simpl; lia |].
  destruct (RefFind_all_modules_returns_sum x64 jump_then_nops capstone 2 3 0 0 cbJmp []
              true "refs" capstone_advances ltac:(lia) F cbJmp_keeps_count
              ltac:(simpl; lia))
    as [ret [ev [R H]]].
  assert (E : ret = 1) by (vm_compute in R; injection R as <- _; reflexivity).
  subst ret. exists ev. split; [exact R |].
  split; [apply H; discriminate | vm_compute; reflexivity].
Defined.

(** X11.  The search returns, and the reads it makes of the debuggee's
    memory are these.  In the region scope none when the region is not
    found, and else one, of the range computed from the region.  In the
    module scope none when the module is not found, and else one, of the
    whole module.  In the all-modules scope one per module, of the whole
    module, in the order of the list and without gaps, from the first
    module on; of every module when the count returned is not 0. *)
Theorem RefFind_reads_ranges_in_order {I U : Type} (pf : Platform) (dbg : Debuggee)
    (cp : Capstone I) (maxlen : Z) (fuel : nat) (Address Size : Z)
    (Callback : CBREF I U) (UserData : U) (Silent : bool) (Name : string)
    (type : REFFINDTYPE) :
  decoder_advances cp maxlen -> 1 <= maxlen -> reads_fit pf dbg maxlen fuel ->
  exists ret ev,
    RefFind pf dbg cp fuel Address Size Callback UserData Silent Name type = Some (ret, ev) /\
    match type with
    | CURRENT_REGION =>
        let '(regionBase, regionSize) := MemFindBaseAddr dbg Address in
        reads ev = if (regionBase =? 0) || (regionSize =? 0) then []
                   else [region_range pf Address Size regionBase regionSize]
    | CURRENT_MODULE =>
        reads ev = match ModInfoFromAddr dbg Address with
                   | Some m => [module_range m]
                   | None => []
                   end
    | ALL_MODULES =>
        (exists k, reads ev = map module_range (firstn k (ModGetList dbg)) /\
                   (ModGetList dbg <> [] -> (1 <= k)%nat)) /\
        (ret <> 0 -> reads ev = map module_range (ModGetList dbg))
    end.
Proof.
  intros Hdec Hmax Hfit.
  destruct (RefFind_runs pf dbg cp maxlen fuel Hdec Hmax Hfit Address Size Callback UserData
              Silent Name type) as [ret [ev H]].
  exists ret, ev. split; [exact H |]. unfold RefFind in H. destruct type.
  - destruct (MemFindBaseAddr dbg Address) as [regionBase regionSize].
    destruct ((regionBase =? 0) || (regionSize =? 0)).
    + injection H as _ <-. destruct Silent; reflexivity.
    + destruct (region_range pf Address Size regionBase regionSize) as [scanStart scanSize].
      destruct (RefFindInRange _ _ _ _ _ _ _ _ _ _ _ _) as [[[r ri] ev1] |] eqn:R;
        [| discriminate].
      destruct (scan_trace pf dbg cp fuel Callback UserData Silent _ _ _ _ _ _ _ _
                  quiet_region R) as [Rd _].
      destruct (r =? 0); unfold RefFind_end in H; injection H as _ <-;
        rewrite ?reads_app, Rd; reflexivity.
  - destruct (ModInfoFromAddr dbg Address) as [m |].
    + destruct (RefFindInRange _ _ _ _ _ _ _ _ _ _ _ _) as [[[r ri] ev1] |] eqn:R;
        [| discriminate].
      destruct (scan_trace pf dbg cp fuel Callback UserData Silent _ _ _ _ _ _ _ _
                  quiet_module R) as [Rd _].
      destruct (r =? 0); unfold RefFind_end in H; injection H as _ <-;
        rewrite ?reads_app, Rd; reflexivity.
    + injection H as _ <-. destruct Silent; reflexivity.
  - destruct (ModGetList dbg) as [| m0 l0].
    + injection H as <- <-. split; [| intros N; contradiction N; reflexivity].
      exists 0%nat. split; [destruct Silent; reflexivity | congruence].
    + destruct (modules_loop _ _ _ _ _ _ _ _ (m0 :: l0) _ _) as [[r ev1] |] eqn:E;
        [| discriminate].
      destruct (modules_loop_trace pf dbg cp fuel Callback UserData Silent _ _ _ _ _ _ E)
        as [[k [Rk K1]] [Fin _]].
      destruct r as [r | ri].
      * injection H as <- <-. split; [exists k; split; assumption |].
        intros N. contradiction N.
        apply (modules_loop_returned _ _ _ _ _ _ _ _ _ _ _ _ _ E).
      * unfold RefFind_end in H. injection H as _ <-.
        destruct (Fin ri eq_refl) as [Rf _]. rewrite reads_app, Rf, app_nil_r.
        split; [| intros _; reflexivity].
        exists (List.length (m0 :: l0)). rewrite firstn_all.
        split; [reflexivity | simpl; lia].
Qed.

(** X11, on the two modules with the jump first, searched for jumps:
    both are read, [b.dll] before [a.exe]. *)
Lemma RefFind_reads_ranges_in_order_witness :
  decoder_advances capstone 2 /\ reads_fit x64 jump_then_nops 2 3 /\
  exists ret ev,
    RefFind x64 jump_then_nops capstone 3 0 0 cbJmp [] true "refs" ALL_MODULES
      = Some (ret, ev) /\
    ret = 1 /\ reads ev = [(0x501000, 3); (0x401000, 2)].
Proof.
  assert (F : reads_fit x64 jump_then_nops 2 3).
  { apply (process_reads_fit _ 3); [repeat constructor; simpl; lia | lia | lia]. }
  split; [exact capstone_advances |]. split; [exact F |].
  destruct (RefFind_reads_ranges_in_order x64 jump_then_nops capstone 2 3 0 0 cbJmp [] true
              "refs" ALL_MODULES capstone_advances ltac:(lia) F)
    as [ret [ev [R [_ H]]]].
  exists ret, ev. split; [exact R |].
  assert (E : ret = 1) by (vm_compute in R; injection R as <- _; reflexivity).
  split; [exact E |]. apply H. rewrite E. discriminate.
Defined.

(** X12.  The search prints at most one diagnostic, none when [Silent]
    is set, and none when it returns a count other than 0. *)
Theorem RefFind_prints_at_most_one_diagnostic {I U : Type} (pf : Platform) (dbg : Debuggee)
    (cp : Capstone I) (maxlen : Z) (fuel : nat) (Address Size : Z)
    (Callback : CBREF I U) (UserData : U) (Silent : bool) (Name : string)
    (type : REFFINDTYPE) :
  decoder_advances cp maxlen -> 1 <= maxlen -> reads_fit pf dbg maxlen fuel ->
  exists ret ev,
    RefFind pf dbg cp fuel Address Size Callback UserData Silent Name type = Some (ret, ev) /\
    (List.length (diagnostics ev) <= 1)%nat /\
    (Silent = true -> diagnostics ev = []) /\
    (ret <> 0 -> diagnostics ev = []).
Proof.
  intros Hdec Hmax Hfit.
  destruct (RefFind_runs pf dbg cp maxlen fuel Hdec Hmax Hfit Address Size Callback UserData
              Silent Name type) as [ret [ev H]].
  exists ret, ev. split; [exact H |]. unfold RefFind in H.
  assert (Early : forall msg,
            Some (0, if Silent then [] else [dprintf msg]) = Some (ret, ev) ->
            (List.length (diagnostics ev) <= 1)%nat /\
            (Silent = true -> diagnostics ev = []) /\ (ret <> 0 -> diagnostics ev = [])).
  { intros msg E. injection E as <- <-. split; [destruct Silent; simpl; lia |].
    split; [intros ->; reflexivity | intros N; contradiction N; reflexivity]. }
  assert (Scan : forall r ri ev1 a n refInfo prog tail,
            quiet prog ->
            RefFindInRange pf dbg cp fuel a n Callback UserData Silent refInfo true prog
              = Some (r, ri, ev1) ->
            diagnostics tail = [] ->
            (List.length (diagnostics (ev1 ++ tail)) <= 1)%nat /\
            (Silent = true -> diagnostics (ev1 ++ tail) = []) /\
            (r <> 0 -> diagnostics (ev1 ++ tail) = [])).
  { intros r ri ev1 a n refInfo prog tail Q R T.
    destruct (scan_trace pf dbg cp fuel Callback UserData Silent _ _ _ _ _ _ _ _ Q R)
      as [_ [Ds [Dn Dl]]].
    rewrite diagnostics_app, T, app_nil_r. repeat split; assumption. }
  destruct type.
  - destruct (MemFindBaseAddr dbg Address) as [regionBase regionSize].
    destruct ((regionBase =? 0) || (regionSize =? 0)); [apply (Early _ H) |].
    destruct (region_range pf Address Size regionBase regionSize) as [scanStart scanSize].
    destruct (RefFindInRange _ _ _ _ _ _ _ _ _ _ _ _) as [[[r ri] ev1] |] eqn:R;
      [| discriminate].
    destruct (Z.eqb_spec r 0) as [-> | N].
    + injection H as <- <-.
      apply (Scan _ _ _ _ _ _ _ [GuiReferenceReloadData] quiet_region R eq_refl).
    + unfold RefFind_end in H. injection H as _ <-. rewrite <- app_assoc.
      destruct (Scan _ _ _ _ _ _ _
                  ([GuiReferenceReloadData]
                   ++ [GuiReferenceSetProgress 100; GuiReferenceReloadData])
                  quiet_region R eq_refl) as [A [B C]].
      split; [exact A |]. split; [exact B |]. intros _. apply C, N.
  - destruct (ModInfoFromAddr dbg Address) as [m |]; [| apply (Early _ H)].
    destruct (RefFindInRange _ _ _ _ _ _ _ _ _ _ _ _) as [[[r ri] ev1] |] eqn:R;
      [| discriminate].
    destruct (Z.eqb_spec r 0) as [-> | N].
    + injection H as <- <-. rewrite <- (app_nil_r ev1).
      apply (Scan _ _ _ _ _ _ _ [] quiet_module R eq_refl).
    + unfold RefFind_end in H. injection H as _ <-. rewrite <- app_assoc.
      destruct (Scan _ _ _ _ _ _ _
                  ([GuiReferenceReloadData]
                   ++ [GuiReferenceSetProgress 100; GuiReferenceReloadData])
                  quiet_module R eq_refl) as [A [B C]].
      split; [exact A |]. split; [exact B |]. intros _. apply C, N.
  - destruct (ModGetList dbg) as [| m0 l0]; [apply (Early _ H) |].
    destruct (modules_loop _ _ _ _ _ _ _ _ (m0 :: l0) _ _) as [[r ev1] |] eqn:E;
      [| discriminate].
    destruct (modules_loop_trace pf dbg cp fuel Callback UserData Silent _ _ _ _ _ _ E)
      as [_ [Fin [Ds Dl]]].
    destruct r as [r | ri].
    + injection H as <- <-. split; [exact Dl |]. split; [exact Ds |].
      intros N. contradiction N.
      apply (modules_loop_returned _ _ _ _ _ _ _ _ _ _ _ _ _ E).
    + unfold RefFind_end in H. injection H as _ <-.
      destruct (Fin ri eq_refl) as [_ D]. rewrite diagnostics_app, D. simpl.
      split; [lia |]. split; reflexivity.
Qed.

(** X12, on a search of a region cut short by a read that fails: one
    diagnostic. *)
Lemma RefFind_prints_at_most_one_diagnostic_witness :
  decoder_advances capstone 2 /\ reads_fit x64 sixteen_nops 2 32 /\
  exists ret ev,
    RefFind x64 sixteen_nops capstone 32 0x401008 0x20 cbAll [] false "refs" CURRENT_REGION
      = Some (ret, ev) /\
    diagnostics ev = ["Error reading memory in reference search" ++ nl]%string /\
    (List.length (diagnostics ev) <= 1)%nat.
Proof.
  assert (F : reads_fit x64 sixteen_nops 2 32).
  { apply (process_reads_fit _ 32); [repeat constructor; simpl; lia | lia | lia]. }
  split; [exact capstone_advances |]. split; [exact F |].
  destruct (RefFind_prints_at_most_one_diagnostic x64 sixteen_nops capstone 2 32 0x401008
              0x20 cbAll [] false "refs" CURRENT_REGION capstone_advances ltac:(lia) F)
    as [ret [ev [R [H _]]]].
  exists ret, ev. split; [exact R |]. split; [| exact H].
  vm_compute in R. injection R as _ <-. reflexivity.
Defined.

(** X13.  The overall percentage of the all-modules scope gives every
    module the same share, whatever its size: at 0 percent of the first
    module it is 0, at 100 percent of a module it is what it is at 0
    percent of the next, and at 100 percent of the last module it is
    100. *)
Theorem total_percent_joins (i count : Z) :
  0 <= i -> i + 1 <= count -> count < 2 ^ 24 ->
  total_percent 0 count 0 = 0 /\
  total_percent i count 100 = total_percent (i + 1) count 0 /\
  total_percent (count - 1) count 100 = 100.
Proof.
  intros Hi Hc Hn.
  assert (Pc : (0 < f32_of_Z count)%Q) by (apply f32_of_Z_pos; lia).
  assert (S0 : forall j, 0 <= j < 2 ^ 24 ->
                 total_percent j count 0 = module_floor j count).
  { intros j Hj. rewrite total_percent_pct. unfold module_floor.
    assert (E := module_share_0 j Hj).
    apply pct_eq; [exact Pc | | exact E].
    rewrite E. rewrite <- (Zle_Qle 0). lia. }
  assert (S100 : forall j, 0 <= j -> j + 1 < 2 ^ 24 ->
                   total_percent j count 100 = module_floor (j + 1) count).
  { intros j Hj Hj1. rewrite total_percent_pct. unfold module_floor.
    assert (E := module_share_100 j Hj Hj1).
    apply pct_eq; [exact Pc | | exact E].
    rewrite E. rewrite <- (Zle_Qle 0). lia. }
  split; [| split].
  - rewrite S0 by lia. apply pct_zero, Pc.
  - rewrite S100, S0 by lia. reflexivity.
  - rewrite S100 by lia. replace (count - 1 + 1) with count by lia.
    apply module_floor_full. lia.
Qed.

(** X13, on the second of three modules. *)
Lemma total_percent_joins_witness :
  total_percent 0 3 0 = 0 /\ total_percent 1 3 100 = total_percent 2 3 0 /\
  total_percent 2 3 100 = 100.
Proof.
  apply (total_percent_joins 1 3); lia.
Defined.

(** X14.  The bound of 2 GiB matters.  On a range of [2 ^ 31] bytes or
    more, up to [2 ^ 32 - 1], the conversion of [scanSize - i] to [int]
    gives a negative number, the minimum picks it, and the first call of
    the decoder is made with the window [scanSize - 2 ^ 32], below 0. *)
Theorem sweep_window_negative_from_2GiB {I U : Type} (pf : Platform) (cp : Capstone I)
    (fuel : nat) (scanStart scanSize : Z) (data : list byte) (Callback : CBREF I U)
    (refInfo : REFINFO U) :
  0 <= MAX_DISASM_BUFFER cp -> 32 <= ptr_bits pf -> 2 ^ 31 <= scanSize < 2 ^ 32 ->
  hd_error (sweep_calls pf cp (S fuel) scanSize data Callback
              {| off := 0; addr := scanStart; info := refInfo |})
  = Some (scanStart, 0, scanSize - 2 ^ 32) /\
  scanSize - 2 ^ 32 < 0.
Proof.
  intros Hm Hp Hs. split; [| lia].
  assert (P : 2 ^ 32 <= 2 ^ ptr_bits pf) by (apply Z.pow_le_mono_r; lia).
  simpl sweep_calls. simpl off. simpl addr.
  destruct (Z.ltb_spec 0 scanSize) as [_ | C]; [| lia].
  simpl hd_error. rewrite Z.sub_0_r. unfold wrap. rewrite Z.mod_small by lia.
  assert (T : to_int scanSize = scanSize - 2 ^ 32).
  { unfold to_int.
    rewrite <- (Z_mod_plus_full (scanSize + 2 ^ 31) (-1) (2 ^ 32)).
    rewrite Z.mod_small by lia. lia. }
  rewrite T. rewrite Z.min_r by lia. reflexivity.
Qed.

(** X14, on a range of exactly [2 ^ 31] bytes. *)
Lemma sweep_window_negative_from_2GiB_witness :
  hd_error (sweep_calls x64 capstone 1 (2 ^ 31) [] cbAll
              {| off := 0; addr := 0x401000; info := fresh "refs" |})
  = Some (0x401000, 0, - 2 ^ 31).
Proof.
  apply (sweep_window_negative_from_2GiB x64 capstone 0 0x401000 (2 ^ 31) [] cbAll
           (fresh "refs")); simpl; lia.
Defined.
